(** * Whisperer bridging headers: a verification development

    The repository holds two C headers,

      - [Whisperer/Whisperer-Bridging-Header.h]                      (relative include paths)
      - [Whisperer/whisperer/whisperer/Whisperer-Bridging-Header.h]  (absolute include paths)

    Their text is embedded below character for character.  The headers are
    given meaning by the fragment of the C preprocessor they are written in:
    line comments, [#ifndef], [#define], [#include "..."] and [#endif], plus
    opaque text lines (the declarations of the external headers).  The
    fragment has no directive that removes a macro ([#undef]); a directive
    outside of it stops the run with [Unsupported].

    Layout of the development:
      - [Text]      characters, lines, tokens;
      - [Source]    the text of the two headers;
      - [Cpp]       lines, paths, include resolution, the run of a file;
      - [Facade]    the vocabulary of the specification;
      - [Props]     relations between symbol tables;
      - [Machines]  concrete build environments;
      - then the lemmas about the model and the theorems, one per claim. *)

From Stdlib Require Import Ascii.
From stdpp Require Import base gmap strings list.

(** ** Characters and text *)

Module Text.

(** The double quote (code 34) and the line feed (code 10). *)
Definition dquote : ascii := "034"%char.
Definition newline : ascii := "010"%char.

Definition q : string := String dquote EmptyString.
Definition nl : string := String newline EmptyString.

(** [split_on c s] cuts [s] at every [c]; a text with [n] separators has
    [n + 1] segments, the last one possibly empty. *)
Fixpoint split_on (c : ascii) (s : string) : list string :=
  match s with
  | EmptyString => [EmptyString]
  | String a r =>
      if Ascii.eqb a c then EmptyString :: split_on c r
      else match split_on c r with
           | [] => [String a EmptyString]
           | seg :: segs => String a seg :: segs
           end
  end.

Definition lines (s : string) : list string := split_on newline s.

Fixpoint count_char (c : ascii) (s : string) : nat :=
  match s with
  | EmptyString => 0
  | String a r => (if Ascii.eqb a c then 1 else 0) + count_char c r
  end.

Definition is_space (c : ascii) : bool :=
  Ascii.eqb c " "%char || Ascii.eqb c "009"%char || Ascii.eqb c "013"%char.

Fixpoint skip_spaces (s : string) : string :=
  match s with
  | String a r => if is_space a then skip_spaces r else s
  | EmptyString => EmptyString
  end.

Definition is_ident_char (c : ascii) : bool :=
  let n := nat_of_ascii c in
  (((65 <=? n) && (n <=? 90)) || ((97 <=? n) && (n <=? 122))
   || ((48 <=? n) && (n <=? 57)) || (n =? 95))%nat.

(** The longest identifier prefix of [s] and what follows it. *)
Fixpoint take_ident (s : string) : string * string :=
  match s with
  | String a r =>
      if is_ident_char a
      then let '(i, rest) := take_ident r in (String a i, rest)
      else (EmptyString, s)
  | EmptyString => (EmptyString, EmptyString)
  end.

(** The text before the first [c], when there is one. *)
Fixpoint take_until (c : ascii) (s : string) : option string :=
  match s with
  | EmptyString => None
  | String a r =>
      if Ascii.eqb a c then Some EmptyString
      else String a <$> take_until c r
  end.

End Text.

(** ** The two source files *)

Module Source.
Import Text.

(** The include guard both files use, [guard] for short. *)
Definition Whisperer_Bridging_Header_h : string := "Whisperer_Bridging_Header_h".
Abbreviation guard := Whisperer_Bridging_Header_h.

(** [src/Whisperer/Whisperer-Bridging-Header.h]: 17 line feeds, the file
    ends with an empty line. *)
Definition facade_rel_text : string :=
  "//" +:+ nl +:+
  "//  Whisperer-Bridging-Header.h" +:+ nl +:+
  "//  Whisperer" +:+ nl +:+
  "//" +:+ nl +:+
  "//  Bridging header for whisper.cpp C library integration" +:+ nl +:+
  "//" +:+ nl +:+
  "" +:+ nl +:+
  "#ifndef Whisperer_Bridging_Header_h" +:+ nl +:+
  "#define Whisperer_Bridging_Header_h" +:+ nl +:+
  "" +:+ nl +:+
  "#include " +:+ q +:+ "../whisper.cpp/ggml/include/ggml.h" +:+ q +:+ nl +:+
  "#include " +:+ q +:+ "../whisper.cpp/ggml/include/ggml-cpu.h" +:+ q +:+ nl +:+
  "#include " +:+ q +:+ "../whisper.cpp/ggml/include/ggml-backend.h" +:+ q +:+ nl +:+
  "#include " +:+ q +:+ "../whisper.cpp/include/whisper.h" +:+ q +:+ nl +:+
  "" +:+ nl +:+
  "#endif /* Whisperer_Bridging_Header_h */" +:+ nl +:+
  "" +:+ nl.

(** [src/Whisperer/whisperer/whisperer/Whisperer-Bridging-Header.h]: 15
    line feeds, no line feed after [#endif]. *)
Definition facade_abs_text : string :=
  "//" +:+ nl +:+
  "//  Whisperer-Bridging-Header.h" +:+ nl +:+
  "//  Whisperer" +:+ nl +:+
  "//" +:+ nl +:+
  "//  Bridging header for whisper.cpp C library integration" +:+ nl +:+
  "//" +:+ nl +:+
  "" +:+ nl +:+
  "#ifndef Whisperer_Bridging_Header_h" +:+ nl +:+
  "#define Whisperer_Bridging_Header_h" +:+ nl +:+
  "" +:+ nl +:+
  "#include " +:+ q +:+ "/Users/alexanderi/Downloads/whisperer/whisper.cpp/ggml/include/ggml.h" +:+ q +:+ nl +:+
  "#include " +:+ q +:+ "/Users/alexanderi/Downloads/whisperer/whisper.cpp/ggml/include/ggml-cpu.h" +:+ q +:+ nl +:+
  "#include " +:+ q +:+ "/Users/alexanderi/Downloads/whisperer/whisper.cpp/ggml/include/ggml-backend.h" +:+ q +:+ nl +:+
  "#include " +:+ q +:+ "/Users/alexanderi/Downloads/whisperer/whisper.cpp/include/whisper.h" +:+ q +:+ nl +:+
  "" +:+ nl +:+
  "#endif /* Whisperer_Bridging_Header_h */".

End Source.

(** ** The preprocessor fragment *)

Module Cpp.
Import Text.

(** *** Lines *)

(** What one physical line is to the preprocessor.  Blank lines, line
    comments and the null directive are dropped when a file is read. *)
Inductive line : Type :=
  | Ifndef (m : string)
  | Define (m : string)
  | Include (inc : string)
  | Endif
  | Decl (t : string)
  | Bad (s : string).

(** [#include] takes a file name in double quotes here. *)
Definition parse_include (arg whole : string) : line :=
  match arg with
  | String c r =>
      if Ascii.eqb c dquote then
        match take_until dquote r with
        | Some EmptyString | None => Bad whole
        | Some inc => Include inc
        end
      else Bad whole
  | EmptyString => Bad whole
  end.

(** [s] is the text after the [#]; [whole] is the line as written. *)
Definition parse_directive (s whole : string) : option line :=
  let '(name, rest) := take_ident (skip_spaces s) in
  let arg := skip_spaces rest in
  let m := (take_ident arg).1 in
  if String.eqb name "ifndef" then
    Some (if String.eqb m "" then Bad whole else Ifndef m)
  else if String.eqb name "define" then
    Some (if String.eqb m "" then Bad whole else Define m)
  else if String.eqb name "include" then Some (parse_include arg whole)
  else if String.eqb name "endif" then Some Endif
  else if String.eqb name "" && String.eqb arg "" then None
  else Some (Bad whole).

Definition parse_line (s : string) : option line :=
  match skip_spaces s with
  | EmptyString => None
  | String "/"%char (String "/"%char _) => None
  | String "#"%char r => parse_directive r s
  | _ => Some (Decl s)
  end.

Definition parse_file (txt : string) : list line := omap parse_line (lines txt).

(** *** Paths *)

(** A file is named by its components from the root, with no [.] or [..]
    among them.  Directories are implicit: one exists as soon as a file
    lies below it. *)
Abbreviation path := (list string).

Definition is_absolute (inc : string) : bool :=
  match inc with
  | String "/"%char _ => true
  | _ => false
  end.

Definition components (inc : string) : list string := split_on "/"%char inc.

(** Follow [cs] from the directory [base]; [..] at the root stays there. *)
Fixpoint walk (base : path) (cs : list string) : path :=
  match cs with
  | [] => base
  | c :: cs' =>
      if String.eqb c "" || String.eqb c "." then walk base cs'
      else if String.eqb c ".." then walk (removelast base) cs'
      else walk (base ++ [c]) cs'
  end.

Definition dirname (p : path) : path := removelast p.

(** *** The build environment *)

(** The files of the machine and the directories searched, in order, for a
    quoted include that the including file's own directory does not hold. *)
Record env : Type := Env {
  fs : gmap path string;
  search : list path
}.

(** The lookup of the quoted form of [#include], as GCC and Clang do it:
    an absolute name is opened as it is; a relative one is looked for from
    the directory of the including file, then from each search directory.
    Names are followed component by component ([walk]); links are not
    modelled. *)
Definition candidates (E : env) (cur : path) (inc : string) : list path :=
  if is_absolute inc then [walk [] (components inc)]
  else (λ d, walk d (components inc)) <$> (dirname cur :: search E).

Fixpoint first_existing (files : gmap path string) (ps : list path)
  : option (path * string) :=
  match ps with
  | [] => None
  | p :: ps' =>
      match files !! p with
      | Some txt => Some (p, txt)
      | None => first_existing files ps'
      end
  end.

Definition resolve (E : env) (cur : path) (inc : string) : option (path * string) :=
  first_existing (fs E) (candidates E cur inc).

(** *** State and results *)

(** The symbol table a run builds: every macro with the file that defined
    it, and every declaration passed on to the compiler with the file it
    stands in, oldest first. *)
Record state : Type := State {
  macros : gmap string path;
  decls : list (path * string)
}.

Definition empty_state : state := State ∅ [].

Definition defined (m : string) (st : state) : bool :=
  match macros st !! m with
  | Some _ => true
  | None => false
  end.

(** Defining a macro again is harmless (all macros of the fragment have an
    empty body); the table keeps the file that defined it first. *)
Definition define (m : string) (p : path) (st : state) : state :=
  if defined m st then st else State (<[m := p]> (macros st)) (decls st).

Definition emit (p : path) (t : string) (st : state) : state :=
  State (macros st) (decls st ++ [(p, t)]).

Inductive failure : Type :=
  | NotFound (inc : string)
  | UnmatchedEndif
  | Unterminated
  | Unsupported (s : string).

(** [Err p f]: the build stops with [f], raised at a line of the file [p].
    [OutOfFuel]: the include nesting went deeper than the run allowed. *)
Inductive result : Type :=
  | Ok (st : state)
  | Err (p : path) (f : failure)
  | OutOfFuel.

(** *** Running the lines of one file *)

(** The stack [cs] has one entry per open [#ifndef]: whether its group is
    being kept.  A group inside a skipped group is skipped. *)
Definition active (cs : list bool) : bool :=
  match cs with
  | [] => true
  | b :: _ => b
  end.

Section Lines.
Variable incl : path → string → state → result.

Fixpoint run_lines (cur : path) (ls : list line) (cs : list bool) (st : state)
  : result :=
  match ls with
  | [] =>
      match cs with
      | [] => Ok st
      | _ :: _ => Err cur Unterminated
      end
  | l :: ls' =>
      match l with
      | Ifndef m =>
          run_lines cur ls' ((active cs && negb (defined m st)) :: cs) st
      | Endif =>
          match cs with
          | [] => Err cur UnmatchedEndif
          | _ :: cs' => run_lines cur ls' cs' st
          end
      | Define m =>
          run_lines cur ls' cs (if active cs then define m cur st else st)
      | Include inc =>
          if active cs then
            match incl cur inc st with
            | Ok st' => run_lines cur ls' cs st'
            | r => r
            end
          else run_lines cur ls' cs st
      | Decl t =>
          run_lines cur ls' cs (if active cs then emit cur t st else st)
      | Bad s => Err cur (Unsupported s)
      end
  end.

End Lines.

(** *** Files and includes *)

(** [open_file E fuel p txt st] runs the text [txt] of the file [p]; [fuel]
    bounds how deep includes may nest: the file itself takes one level, each
    file it includes one more.  Conditionals must balance within a file, so
    an included file starts with an empty stack. *)
Fixpoint open_file (E : env) (fuel : nat) (p : path) (txt : string) (st : state)
  : result :=
  match fuel with
  | 0 => OutOfFuel
  | S n =>
      run_lines
        (λ cur inc st',
           match resolve E cur inc with
           | Some (f, t) => open_file E n f t st'
           | None => Err cur (NotFound inc)
           end)
        p (parse_file txt) [] st
  end.

(** The directive [#include "inc"] met in the file [cur]. *)
Definition include_at (E : env) (fuel : nat) (cur : path) (inc : string)
  (st : state) : result :=
  match resolve E cur inc with
  | Some (f, t) => open_file E fuel f t st
  | None => Err cur (NotFound inc)
  end.

(** A translation unit is a file of the machine, run from [st]. *)
Definition compile (E : env) (fuel : nat) (tu : path) (st : state) : result :=
  match fs E !! tu with
  | Some txt => open_file E fuel tu txt st
  | None => Err tu (NotFound (String.concat "/" tu))
  end.

End Cpp.

(** ** The facade, as the specification describes it *)

Module Facade.
Import Text Source Cpp.

(** The two spellings of the external library's directory. *)
Definition rel_prefix : string := "../whisper.cpp/".
Definition abs_prefix : string :=
  "/Users/alexanderi/Downloads/whisperer/whisper.cpp/".

(** The four external headers below that directory, in the order of the
    capability groups: tensor and graph core, CPU backend, generic backend,
    speech-to-text API. *)
Definition headers : list string :=
  [ "ggml/include/ggml.h";
    "ggml/include/ggml-cpu.h";
    "ggml/include/ggml-backend.h";
    "include/whisper.h" ].

Definition header_names : list string :=
  [ "ggml.h"; "ggml-cpu.h"; "ggml-backend.h"; "whisper.h" ].

Definition includes (prefix : string) : list string :=
  (λ h, prefix +:+ h) <$> headers.

(** The directives of a facade whose includes are spelled with [prefix]. *)
Definition skeleton (prefix : string) : list line :=
  Ifndef guard :: Define guard :: (Include <$> includes prefix) ++ [Endif].

(** The sixteen lines of a facade whose includes are spelled with
    [prefix]: the description both files are compared with. *)
Definition template (prefix : string) : list string :=
  [ "//";
    "//  Whisperer-Bridging-Header.h";
    "//  Whisperer";
    "//";
    "//  Bridging header for whisper.cpp C library integration";
    "//";
    "";
    "#ifndef " +:+ guard;
    "#define " +:+ guard;
    "" ]
  ++ ((λ inc, "#include " +:+ q +:+ inc +:+ q) <$> includes prefix)
  ++ [ ""; "#endif /* " +:+ guard +:+ " */" ].

(** The two texts of the facade, each with its prefix. *)
Definition facades : list (string * string) :=
  [ (facade_rel_text, rel_prefix); (facade_abs_text, abs_prefix) ].

Definition includes_of (ls : list line) : list string :=
  omap (λ l, match l with Include inc => Some inc | _ => None end) ls.

Definition defines_of (ls : list line) : list string :=
  omap (λ l, match l with Define m => Some m | _ => None end) ls.

Definition basename (inc : string) : string := List.last (components inc) "".

(** A line that hands nothing to the compiler and names no macro but the
    guard. *)
Definition pass_through (l : line) : bool :=
  match l with
  | Ifndef m | Define m => String.eqb m guard
  | Include _ | Endif => true
  | Decl _ | Bad _ => false
  end.

(** The directory the absolute facade names. *)
Definition whisper_dir : path :=
  [ "Users"; "alexanderi"; "Downloads"; "whisperer"; "whisper.cpp" ].

(** The directory [whisper.cpp] beside the directory of the file [p]. *)
Definition sibling (p : path) : path := dirname (dirname p) ++ ["whisper.cpp"].

(** The four headers below the directory [root]. *)
Definition header_paths (root : path) : list path :=
  (λ h, root ++ components h) <$> headers.

Definition has_headers (files : gmap path string) (root : path) : Prop :=
  Forall (λ f, is_Some (files !! f)) (header_paths root).

(** No file of the machine lies in or below the directory [d]. *)
Definition lacks_dir (files : gmap path string) (d : path) : Prop :=
  ∀ rest, files !! (d ++ rest) = None.

(** No search directory supplies a header of the relative facade. *)
Definition search_misses (E : env) : Prop :=
  ∀ d inc, d ∈ search E → inc ∈ includes rel_prefix →
    fs E !! walk d (components inc) = None.

(** The environment in which the file [p] is empty. *)
Definition blank_out (p : path) (E : env) : env :=
  Env (<[p := ""]> (fs E)) (search E).

End Facade.

(** ** Relations between symbol tables, and provenance *)

Module Props.
Import Text Source Cpp Facade.

(** [st'] holds everything [st] holds: a run only ever adds. *)
Definition grows (st st' : state) : Prop :=
  macros st ⊆ macros st' ∧ decls st `prefix_of` decls st'.

(** The line [l] stands in the file [f] of the machine. *)
Definition from_file (E : env) (f : path) (l : line) : Prop :=
  ∃ txt, fs E !! f = Some txt ∧ l ∈ parse_file txt.

(** Every entry of [st'] is an entry of [st] or was put there by a line of
    the file it names. *)
Definition traced (E : env) (st st' : state) : Prop :=
  (∀ m f, macros st' !! m = Some f →
     macros st !! m = Some f ∨ from_file E f (Define m))
  ∧ (∀ f t, (f, t) ∈ decls st' →
     (f, t) ∈ decls st ∨ from_file E f (Decl t)).

(** Two symbol tables that differ at most in the file named for the
    guard. *)
Definition alike (s1 s2 : state) : Prop :=
  decls s1 = decls s2
  ∧ (∀ m, defined m s1 = defined m s2)
  ∧ (∀ m, m ≠ guard → macros s1 !! m = macros s2 !! m).

(** Two builds that end the same way, with tables that are [alike]. *)
Definition alike_results (r1 r2 : result) : Prop :=
  match r1, r2 with
  | Ok s1, Ok s2 => alike s1 s2
  | Err p1 f1, Err p2 f2 => p1 = p2 ∧ f1 = f2
  | OutOfFuel, OutOfFuel => True
  | _, _ => False
  end.

(** The run came to an end within its nesting bound, well or not. *)
Definition terminates (r : result) : Prop := r ≠ OutOfFuel.

(** Every include of the machine that does not lead to the file [p] leads
    to a file of smaller rank: the include graph has no cycle but through
    [p]. *)
Definition ranked (E : env) (p : path) (rank : path → nat) : Prop :=
  ∀ f txt inc g u,
    fs E !! f = Some txt → Include inc ∈ parse_file txt →
    resolve E f inc = Some (g, u) → g ≠ p → rank g < rank f.

(** The build went through. *)
Definition succeeds (r : result) : Prop := ∃ st, r = Ok st.

(** The include [inc], written in the file [cur], finds a file. *)
Definition resolves (E : env) (cur : path) (inc : string) : Prop :=
  is_Some (resolve E cur inc).

(** [f] is the failure to find one of the files [incs]. *)
Definition resolution_failure (incs : list string) (f : failure) : Prop :=
  ∃ inc, inc ∈ incs ∧ f = NotFound inc.

End Props.

(** ** Machines to run the model on *)

Module Machines.
Import Text Source Cpp Facade.

Definition include_line (inc : string) : string := "#include " +:+ q +:+ inc +:+ q.

(** A checkout of the repository below [root], as the relative facade
    expects it: the facades in [Whisperer/], the library beside it. *)
Definition rel_path (root : path) : path :=
  root ++ ["Whisperer"; "Whisperer-Bridging-Header.h"].
Definition abs_path (root : path) : path :=
  root ++ ["Whisperer"; "whisperer"; "whisperer"; "Whisperer-Bridging-Header.h"].
Definition main_path (root : path) : path := root ++ ["Whisperer"; "main.c"].

Definition rel_inc : string := "Whisperer-Bridging-Header.h".
Definition abs_inc : string := "whisperer/whisperer/Whisperer-Bridging-Header.h".

(** Stand-ins for the four external headers: one declaration each, and
    after it the lines [more]. *)
Definition library (dir : path) (more : string) : list (path * string) :=
  [ (dir ++ ["ggml"; "include"; "ggml.h"], "struct ggml_tensor;" +:+ more);
    (dir ++ ["ggml"; "include"; "ggml-cpu.h"], "void ggml_cpu_init(void);" +:+ more);
    (dir ++ ["ggml"; "include"; "ggml-backend.h"], "struct ggml_backend;" +:+ more);
    (dir ++ ["include"; "whisper.h"], "struct whisper_context;" +:+ more) ].

Definition checkout (root : path) (main : string) : list (path * string) :=
  [ (rel_path root, facade_rel_text);
    (abs_path root, facade_abs_text);
    (main_path root, main) ].

Definition main_rel : string := include_line rel_inc +:+ nl +:+ "int main(void);".
Definition main_abs : string := include_line abs_inc +:+ nl +:+ "int main(void);".
Definition main_rel_abs : string :=
  include_line rel_inc +:+ nl +:+ include_line abs_inc +:+ nl +:+ "int main(void);".
Definition main_guarded : string :=
  "#define " +:+ guard +:+ nl +:+ include_line rel_inc +:+ nl +:+ "int main(void);".

(** The author's machine: the checkout in the author's download folder. *)
Definition author_root : path := ["Users"; "alexanderi"; "Downloads"; "whisperer"].
Definition author : env :=
  Env (list_to_map (checkout author_root main_abs ++ library whisper_dir "")) [].

(** Another developer's machine: the same checkout below [/proj], with a
    unit that includes the relative facade, then the nested one, and a
    search directory that holds nothing of the library. *)
Definition laptop : env :=
  Env (list_to_map (checkout ["proj"] main_rel_abs ++ library ["proj"; "whisper.cpp"] ""))
      [["usr"; "include"]].

(** A machine with the facades and no copy of the library. *)
Definition bare (main : string) : env := Env (list_to_map (checkout ["proj"] main)) [].

(** A machine whose library lies below [/opt] and is found through the
    search directory [/opt/sdk]. *)
Definition searched : env :=
  Env (list_to_map (checkout ["proj"] main_rel
         ++ (["opt"; "sdk"; "sdk.h"], "struct sdk;") :: library ["opt"; "whisper.cpp"] ""))
      [["opt"; "sdk"]].

(** A machine on which each of the four headers includes the relative
    facade again. *)
Definition back_edge : string :=
  nl +:+ include_line "../../../Whisperer/Whisperer-Bridging-Header.h".
Definition back_edge_top : string :=
  nl +:+ include_line "../../Whisperer/Whisperer-Bridging-Header.h".
Definition cyclic : env :=
  Env (list_to_map (checkout ["proj"] main_rel
         ++ [ (["proj"; "whisper.cpp"; "ggml"; "include"; "ggml.h"],
               "struct ggml_tensor;" +:+ back_edge);
              (["proj"; "whisper.cpp"; "ggml"; "include"; "ggml-cpu.h"],
               "void ggml_cpu_init(void);" +:+ back_edge);
              (["proj"; "whisper.cpp"; "ggml"; "include"; "ggml-backend.h"],
               "struct ggml_backend;" +:+ back_edge);
              (["proj"; "whisper.cpp"; "include"; "whisper.h"],
               "struct whisper_context;" +:+ back_edge_top) ])) [].

(** On [cyclic] the headers come first, then the relative facade, then the
    unit. *)
Definition cyclic_rank (f : path) : nat :=
  if decide (f = main_path ["proj"]) then 2
  else if decide (f = rel_path ["proj"]) then 1
  else 0.

(** A machine with one file that includes itself and has no guard. *)
Definition loop_path : path := ["proj"; "loop.h"].
Definition loop_text : string := include_line "loop.h".
Definition looping : env := Env {[ loop_path := loop_text ]} [].

(** The four declarations of the stand-in library below [dir]. *)
Definition library_decls (dir : path) : list (path * string) :=
  [ (dir ++ ["ggml"; "include"; "ggml.h"], "struct ggml_tensor;");
    (dir ++ ["ggml"; "include"; "ggml-cpu.h"], "void ggml_cpu_init(void);");
    (dir ++ ["ggml"; "include"; "ggml-backend.h"], "struct ggml_backend;");
    (dir ++ ["include"; "whisper.h"], "struct whisper_context;") ].

(** The table after the facade at [f] brought in the library below [dir],
    and the table the unit [main] ends with. *)
Definition after_facade (f : path) (dir : path) : state :=
  State {[ guard := f ]} (library_decls dir).
Definition built (f : path) (dir : path) (main : path) : state :=
  State {[ guard := f ]} (library_decls dir ++ [(main, "int main(void);")]).

End Machines.

(** ** Moving a facade, and what it brings in *)

Module Layouts.
Import Text Source Cpp Facade Props Machines.

(** Two builds of one text read from the files [p1] and [p2]: they end the
    same way, with tables that are [alike]; a failure is the same failure,
    raised in the same file or in [p1] and [p2] themselves. *)
Definition alike_moved (p1 p2 : path) (r1 r2 : result) : Prop :=
  match r1, r2 with
  | Ok s1, Ok s2 => alike s1 s2
  | Err q1 f1, Err q2 f2 => f1 = f2 ∧ (q1 = q2 ∨ (q1 = p1 ∧ q2 = p2))
  | OutOfFuel, OutOfFuel => True
  | _, _ => False
  end.






(** A second place for the relative facade, in a directory beside
    [Whisperer/]. *)
Definition moved_path (root : path) : path := root ++ ["Bridge"; "Bridge.h"].

End Layouts.

(** ** Basic facts about the model *)

Import Text Source Cpp Facade Props Machines.

Lemma parse_facade_rel : parse_file facade_rel_text = skeleton rel_prefix.
Proof. reflexivity. Qed.

Lemma parse_facade_abs : parse_file facade_abs_text = skeleton abs_prefix.
Proof. reflexivity. Qed.

Lemma parse_facade txt pre : (txt, pre) ∈ facades → parse_file txt = skeleton pre.
Proof.
  unfold facades. intros H.
  apply elem_of_cons in H as [[= -> ->]|H]; [apply parse_facade_rel|].
  apply elem_of_cons in H as [[= -> ->]|H]; [apply parse_facade_abs|].
  by apply elem_of_nil in H.
Qed.

Lemma rel_is_facade : (facade_rel_text, rel_prefix) ∈ facades.
Proof. apply list_elem_of_here. Qed.

Lemma abs_is_facade : (facade_abs_text, abs_prefix) ∈ facades.
Proof. apply list_elem_of_further, list_elem_of_here. Qed.

Lemma open_file_S E n p txt st :
  open_file E (S n) p txt st = run_lines (include_at E n) p (parse_file txt) [] st.
Proof. reflexivity. Qed.

Lemma defined_true m st : defined m st = true ↔ is_Some (macros st !! m).
Proof. unfold defined. destruct (macros st !! m); split; (done || by eauto || by intros []). Qed.

Lemma defined_false m st : defined m st = false ↔ macros st !! m = None.
Proof. unfold defined. by destruct (macros st !! m). Qed.

Lemma defined_define m p st : defined m (define m p st) = true.
Proof.
  unfold define. destruct (defined m st) eqn:Hd; [done|].
  unfold defined. cbn. by rewrite lookup_insert_eq.
Qed.

Lemma lookup_define_fresh m p st :
  defined m st = false → macros (define m p st) !! m = Some p.
Proof. intros Hd. unfold define. rewrite Hd. cbn. apply lookup_insert_eq. Qed.

#[local] Instance grows_preorder : PreOrder grows.
Proof.
  split.
  - by intros st.
  - intros a b c [? ?] [? ?]. split; by etrans.
Qed.

Lemma define_grows m p st : grows st (define m p st).
Proof.
  unfold define. destruct (defined m st) eqn:Hd; [done|].
  split; cbn; [|done]. apply insert_subseteq. by apply defined_false.
Qed.

Lemma emit_grows p t st : grows st (emit p t st).
Proof. split; cbn; [done|]. by apply prefix_app_r. Qed.

Lemma grows_defined m st st' : grows st st' → defined m st = true → defined m st' = true.
Proof.
  intros [Hm _]. rewrite !defined_true. intros [f Hf]. exists f.
  eapply lookup_weaken; eauto.
Qed.

Section RunLines.
Context (incl : path → string → state → result).

Lemma run_lines_grows cur ls cs st st' :
  (∀ c inc s s', incl c inc s = Ok s' → grows s s') →
  run_lines incl cur ls cs st = Ok st' → grows st st'.
Proof.
  intros Hincl. revert cs st.
  induction ls as [|l ls IH]; intros cs st; cbn.
  - destruct cs; [|done]. by intros [= ->].
  - destruct l as [m|m|inc| |t|s]; try done.
    + apply IH.
    + intros H. apply IH in H. etrans; [|done]. destruct (active cs); [apply define_grows|done].
    + destruct (active cs); [|apply IH].
      destruct (incl cur inc st) as [s1| |] eqn:Hi; try done.
      intros H. apply IH in H. etrans; [|done]. eauto.
    + destruct cs; [done|]. apply IH.
    + intros H. apply IH in H. etrans; [|done]. destruct (active cs); [apply emit_grows|done].
Qed.
End RunLines.

Lemma open_file_grows E fuel p txt st st' :
  open_file E fuel p txt st = Ok st' → grows st st'.
Proof.
  revert p txt st st'. induction fuel as [|n IH]; intros p txt st st'; [done|].
  rewrite open_file_S. apply run_lines_grows.
  intros c inc s s'. unfold include_at. destruct (resolve E c inc) as [[f t]|]; [apply IH|done].
Qed.

Lemma include_at_grows E fuel cur inc st st' :
  include_at E fuel cur inc st = Ok st' → grows st st'.
Proof.
  unfold include_at. destruct (resolve E cur inc) as [[f t]|]; [apply open_file_grows|done].
Qed.

(** *** Running a facade *)

Lemma run_skeleton_skip incl cur pre st :
  defined guard st = true → run_lines incl cur (skeleton pre) [] st = Ok st.
Proof. intros Hd. cbn. by rewrite Hd. Qed.

Lemma run_skeleton_body incl cur pre st :
  defined guard st = false →
  run_lines incl cur (skeleton pre) [] st
  = run_lines incl cur (Include <$> includes pre) [] (define guard cur st).
Proof.
  intros Hd. cbn. rewrite Hd. cbn.
  repeat (match goal with |- context [incl ?c ?i ?s] => destruct (incl c i s) end; try reflexivity).
Qed.

Lemma open_facade_skip E n p txt pre st :
  (txt, pre) ∈ facades → defined guard st = true →
  open_file E (S n) p txt st = Ok st.
Proof.
  intros Hf Hd. rewrite open_file_S, (parse_facade _ _ Hf). by apply run_skeleton_skip.
Qed.

Lemma open_facade_body E n p txt pre st :
  (txt, pre) ∈ facades → defined guard st = false →
  open_file E (S n) p txt st
  = run_lines (include_at E n) p (Include <$> includes pre) [] (define guard p st).
Proof.
  intros Hf Hd. rewrite open_file_S, (parse_facade _ _ Hf). by apply run_skeleton_body.
Qed.

(** A facade that went through leaves the guard defined. *)
Lemma open_facade_defines E fuel p txt pre st st' :
  (txt, pre) ∈ facades → open_file E fuel p txt st = Ok st' →
  defined guard st' = true.
Proof.
  intros Hf. destruct fuel as [|n]; [done|].
  destruct (defined guard st) eqn:Hd.
  - rewrite (open_facade_skip _ _ _ _ _ _ Hf Hd). by intros [= <-].
  - rewrite (open_facade_body _ _ _ _ _ _ Hf Hd). intros H.
    apply run_lines_grows in H; [|intros ????; apply include_at_grows].
    eapply grows_defined; [done|]. apply defined_define.
Qed.

(** Once one facade went through, including a facade adds nothing. *)
Lemma facade_after_facade E fuel cur inc1 inc2 p1 p2 t1 t2 pre1 pre2 st st' :
  (t1, pre1) ∈ facades → (t2, pre2) ∈ facades →
  resolve E cur inc1 = Some (p1, t1) → resolve E cur inc2 = Some (p2, t2) →
  include_at E fuel cur inc1 st = Ok st' →
  include_at E fuel cur inc2 st' = Ok st'.
Proof.
  intros Hf1 Hf2 Hr1 Hr2. unfold include_at. rewrite Hr1, Hr2. intros H.
  destruct fuel as [|n]; [done|].
  eapply open_facade_skip; [done|]. exact (open_facade_defines _ _ _ _ _ _ _ Hf1 H).
Qed.

Lemma include_pair E fuel cur inc1 inc2 p1 p2 t1 t2 pre1 pre2 rest cs st :
  (t1, pre1) ∈ facades → (t2, pre2) ∈ facades →
  resolve E cur inc1 = Some (p1, t1) → resolve E cur inc2 = Some (p2, t2) →
  run_lines (include_at E fuel) cur (Include inc1 :: Include inc2 :: rest) cs st
  = run_lines (include_at E fuel) cur (Include inc1 :: rest) cs st.
Proof.
  intros Hf1 Hf2 Hr1 Hr2. cbn. destruct (active cs); [|done].
  destruct (include_at E fuel cur inc1 st) as [s1| |] eqn:H1; [|done..].
  by rewrite (facade_after_facade _ _ _ _ _ _ _ _ _ _ _ _ _ Hf1 Hf2 Hr1 Hr2 H1).
Qed.

(** With the guard defined, an include of a facade can be struck from the
    rest of a file, wherever it stands. *)
Lemma run_lines_drop_facade E n cur inc p txt pre l1 l2 cs st :
  (txt, pre) ∈ facades → resolve E cur inc = Some (p, txt) →
  defined guard st = true →
  run_lines (include_at E (S n)) cur (l1 ++ Include inc :: l2) cs st
  = run_lines (include_at E (S n)) cur (l1 ++ l2) cs st.
Proof.
  intros Hf Hr. revert cs st.
  induction l1 as [|l l1 IH]; intros cs st Hd; cbn.
  - destruct (active cs); [|done]. unfold include_at. rewrite Hr.
    by rewrite (open_facade_skip _ _ _ _ _ _ Hf Hd).
  - destruct l as [m|m|inc'| |t|s]; try done.
    + by apply IH.
    + apply IH. destruct (active cs); [|done].
      eapply grows_defined; [apply define_grows|done].
    + destruct (active cs); [|by apply IH].
      destruct (include_at E (S n) cur inc' st) as [s1| |] eqn:Hi; try done.
      apply IH. eapply grows_defined; [|done]. by eapply include_at_grows.
    + destruct cs; [done|]. by apply IH.
    + apply IH. destruct (active cs); [|done].
      eapply grows_defined; [apply emit_grows|done].
Qed.

(** After an include of one facade that is run, a later include of a
    facade can be struck from the file. *)
Lemma include_then_drop E fuel cur inc1 inc2 p1 p2 t1 t2 pre1 pre2 l1 l2 cs st :
  (t1, pre1) ∈ facades → (t2, pre2) ∈ facades →
  resolve E cur inc1 = Some (p1, t1) → resolve E cur inc2 = Some (p2, t2) →
  active cs = true →
  run_lines (include_at E fuel) cur (Include inc1 :: l1 ++ Include inc2 :: l2) cs st
  = run_lines (include_at E fuel) cur (Include inc1 :: l1 ++ l2) cs st.
Proof.
  intros Hf1 Hf2 Hr1 Hr2 Hcs. cbn. rewrite Hcs.
  destruct (include_at E fuel cur inc1 st) as [s1| |] eqn:H1; [|done..].
  assert (Hd : defined guard s1 = true).
  { unfold include_at in H1. rewrite Hr1 in H1.
    exact (open_facade_defines _ _ _ _ _ _ _ Hf1 H1). }
  destruct fuel as [|n].
  { unfold include_at in H1. by rewrite Hr1 in H1. }
  exact (run_lines_drop_facade _ _ _ _ _ _ _ _ _ _ _ Hf2 Hr2 Hd).
Qed.

(** *** Resolution *)

Lemma first_existing_Some files ps f t :
  first_existing files ps = Some (f, t) → f ∈ ps ∧ files !! f = Some t.
Proof.
  induction ps as [|p ps IH]; cbn; [done|].
  destruct (files !! p) as [txt|] eqn:Hp.
  - intros [= <- <-]. split; [apply list_elem_of_here|done].
  - intros H. destruct (IH H). split; [by apply list_elem_of_further|done].
Qed.

Lemma first_existing_None files ps :
  first_existing files ps = None ↔ Forall (λ p, files !! p = None) ps.
Proof.
  induction ps as [|p ps IH]; cbn.
  - split; [constructor|done].
  - destruct (files !! p) as [txt|] eqn:Hp.
    + split; [done|]. intros H. apply Forall_cons in H as [H _]. congruence.
    + rewrite IH. split; [by constructor|]. intros H. by apply Forall_cons in H as [_ H].
Qed.

Lemma resolve_Some E cur inc f t :
  resolve E cur inc = Some (f, t) → fs E !! f = Some t.
Proof. intros H. by apply first_existing_Some in H as [_ H]. Qed.

(** *** Provenance *)

Lemma traced_refl E st : traced E st st.
Proof. split; auto. Qed.

Lemma traced_trans E a b c : traced E a b → traced E b c → traced E a c.
Proof.
  intros [Hm1 Hd1] [Hm2 Hd2]. split.
  - intros m f H. destruct (Hm2 _ _ H); auto.
  - intros f t H. destruct (Hd2 _ _ H); auto.
Qed.

Lemma define_traced E m cur st :
  from_file E cur (Define m) → traced E st (define m cur st).
Proof.
  intros Hl. unfold define. destruct (defined m st); [apply traced_refl|].
  split; cbn; [|auto]. intros m' f.
  destruct (decide (m = m')) as [<-|Hne].
  - rewrite lookup_insert_eq. intros [= <-]. by right.
  - rewrite lookup_insert_ne by done. auto.
Qed.

Lemma emit_traced E t cur st :
  from_file E cur (Decl t) → traced E st (emit cur t st).
Proof.
  intros Hl. split; cbn; [auto|]. intros f t' H.
  apply elem_of_app in H as [H|H]; [auto|].
  apply list_elem_of_singleton in H as [= -> ->]. by right.
Qed.

Lemma run_lines_traced E incl cur ls cs st st' :
  (∀ c inc s s', incl c inc s = Ok s' → traced E s s') →
  (∀ l, l ∈ ls → from_file E cur l) →
  run_lines incl cur ls cs st = Ok st' → traced E st st'.
Proof.
  intros Hincl. revert cs st.
  induction ls as [|l ls IH]; intros cs st Hls; cbn.
  - destruct cs; [|done]. intros [= ->]. apply traced_refl.
  - assert (Hl : from_file E cur l) by (apply Hls, list_elem_of_here).
    assert (Hls' : ∀ l', l' ∈ ls → from_file E cur l')
      by (intros l' ?; by apply Hls, list_elem_of_further).
    destruct l as [m|m|inc| |t|s]; try done.
    + by apply IH.
    + intros H. apply IH in H; [|done]. eapply traced_trans; [|done].
      destruct (active cs); [by apply define_traced|apply traced_refl].
    + destruct (active cs); [|by apply IH].
      destruct (incl cur inc st) as [s1| |] eqn:Hi; try done.
      intros H. apply IH in H; [|done]. eapply traced_trans; [|done]. eauto.
    + destruct cs; [done|]. by apply IH.
    + intros H. apply IH in H; [|done]. eapply traced_trans; [|done].
      destruct (active cs); [by apply emit_traced|apply traced_refl].
Qed.

Lemma open_file_traced E fuel p txt st st' :
  fs E !! p = Some txt →
  open_file E fuel p txt st = Ok st' → traced E st st'.
Proof.
  revert p txt st st'. induction fuel as [|n IH]; intros p txt st st' Hp; [done|].
  rewrite open_file_S. apply run_lines_traced.
  - intros c inc s s'. unfold include_at.
    destruct (resolve E c inc) as [[f t]|] eqn:Hr; [|done].
    apply IH. by eapply resolve_Some.
  - intros l Hl. by exists txt.
Qed.

(** A declaration is handed on exactly as its line is written. *)
Lemma parse_line_Decl s t : parse_line s = Some (Decl t) → t = s.
Proof.
  unfold parse_line, parse_directive, parse_include.
  repeat case_match; try done; congruence.
Qed.

Lemma parse_file_Decl txt t : Decl t ∈ parse_file txt → t ∈ lines txt.
Proof.
  unfold parse_file. rewrite list_elem_of_omap. intros (s & Hs & Hp).
  by apply parse_line_Decl in Hp as ->.
Qed.

(** *** A run of include directives only *)

Lemma run_includes_Err incl cur incs st p f :
  run_lines incl cur (Include <$> incs) [] st = Err p f →
  ∃ inc s, inc ∈ incs ∧ incl cur inc s = Err p f.
Proof.
  revert st. induction incs as [|inc incs IH]; intros st; cbn; [done|].
  destruct (incl cur inc st) as [s1|p' f'|] eqn:Hi; [| |done].
  - intros H. destruct (IH _ H) as (inc' & s & Hin & Hs).
    exists inc', s. split; [by apply list_elem_of_further|done].
  - intros [= -> ->]. exists inc, st. split; [apply list_elem_of_here|done].
Qed.

Lemma run_includes_Ok incl cur incs st st' :
  run_lines incl cur (Include <$> incs) [] st = Ok st' →
  Forall (λ inc, ∃ s s', incl cur inc s = Ok s') incs.
Proof.
  revert st. induction incs as [|inc incs IH]; intros st; cbn; [constructor|].
  destruct (incl cur inc st) as [s1|p' f'|] eqn:Hi; [|done..].
  intros H. constructor; [by eauto|by eapply IH].
Qed.

(** *** Where a failure is raised *)

Lemma run_lines_Err incl cur ls cs st p f :
  run_lines incl cur ls cs st = Err p f →
  (∃ inc s, incl cur inc s = Err p f) ∨ p = cur.
Proof.
  revert cs st. induction ls as [|l ls IH]; intros cs st; cbn.
  - destruct cs; [done|]. intros [= <- _]. by right.
  - destruct l as [m|m|inc| |t|s]; try apply IH.
    + destruct (active cs); [|apply IH].
      destruct (incl cur inc st) as [s1|p' f'|] eqn:Hi; [apply IH| |done].
      intros [= -> ->]. left. eauto.
    + destruct cs; [|apply IH]. intros [= <- _]. by right.
    + intros [= <- _]. by right.
Qed.

Section Attribution.
Context (E : env) (p : path) (txt pre : string).
Hypothesis Hfacade : (txt, pre) ∈ facades.
Hypothesis Hp : fs E !! p = Some txt.

Lemma facade_failure_any_file fuel q t st f :
  fs E !! q = Some t →
  open_file E fuel q t st = Err p f →
  ∃ inc, inc ∈ includes pre ∧ f = NotFound inc.
Proof.
  revert q t st. induction fuel as [|n IH]; intros q t st Hq; [done|].
  assert (Hinc : ∀ cur inc s, include_at E n cur inc s = Err p f →
            (cur = p ∧ f = NotFound inc) ∨ ∃ i, i ∈ includes pre ∧ f = NotFound i).
  { intros cur inc s. unfold include_at.
    destruct (resolve E cur inc) as [[g u]|] eqn:Hr.
    - intros H. right. eapply IH; [|done]. by eapply resolve_Some.
    - intros [= -> ->]. by left. }
  destruct (decide (q = p)) as [->|Hne].
  - assert (t = txt) as -> by congruence.
    destruct (defined guard st) eqn:Hd.
    + by rewrite (open_facade_skip _ _ _ _ _ _ Hfacade Hd).
    + rewrite (open_facade_body _ _ _ _ _ _ Hfacade Hd). intros H.
      apply run_includes_Err in H as (inc & s & Hin & H).
      destruct (Hinc _ _ _ H) as [[_ ->]|?]; eauto.
  - rewrite open_file_S. intros H.
    apply run_lines_Err in H as [(inc & s & H)|Heq]; [|congruence].
    destruct (Hinc _ _ _ H) as [[-> _]|?]; [done|eauto].
Qed.

End Attribution.

(** *** Runs that agree *)

(** Two ways of including that agree on the states satisfying an invariant
    of the run give the same run. *)
Lemma run_lines_agree (I : state → Prop) incl1 incl2 cur ls cs st :
  (∀ s s', grows s s' → I s → I s') →
  (∀ c inc s, I s → incl1 c inc s = incl2 c inc s) →
  (∀ c inc s s', incl1 c inc s = Ok s' → grows s s') →
  I st →
  run_lines incl1 cur ls cs st = run_lines incl2 cur ls cs st.
Proof.
  intros Hup Heq Hg. revert cs st.
  induction ls as [|l ls IH]; intros cs st HI; cbn; [done|].
  destruct l as [m|m|inc| |t|s]; try done.
  - by apply IH.
  - apply IH. destruct (active cs); [|done]. eapply Hup; [apply define_grows|done].
  - destruct (active cs); [|by apply IH].
    rewrite <- (Heq _ _ _ HI).
    destruct (incl1 cur inc st) as [s1| |] eqn:Hi; try done.
    apply IH. eapply Hup; [|done]. eauto.
  - destruct cs; [done|]. by apply IH.
  - apply IH. destruct (active cs); [|done]. eapply Hup; [apply emit_grows|done].
Qed.

(** More fuel never changes a run that went through. *)
Lemma run_lines_more incl1 incl2 cur ls cs st :
  (∀ c inc s, incl1 c inc s ≠ OutOfFuel → incl2 c inc s = incl1 c inc s) →
  run_lines incl1 cur ls cs st ≠ OutOfFuel →
  run_lines incl2 cur ls cs st = run_lines incl1 cur ls cs st.
Proof.
  intros Hm. revert cs st.
  induction ls as [|l ls IH]; intros cs st; cbn; [done|].
  destruct l as [m|m|inc| |t|s]; try done; try apply IH.
  - destruct (active cs); [|apply IH].
    destruct (incl1 cur inc st) as [s1|p' f'|] eqn:Hi.
    + rewrite Hm by congruence. rewrite Hi. apply IH.
    + rewrite Hm by congruence. by rewrite Hi.
    + done.
  - destruct cs; [done|]. apply IH.
Qed.

Lemma open_file_more E n k p txt st :
  n ≤ k → open_file E n p txt st ≠ OutOfFuel →
  open_file E k p txt st = open_file E n p txt st.
Proof.
  revert k p txt st. induction n as [|n IH]; intros k p txt st Hle; [done|].
  destruct k as [|k]; [lia|]. rewrite !open_file_S.
  apply run_lines_more. intros c inc s. unfold include_at.
  destruct (resolve E c inc) as [[f t]|]; [|done]. apply IH. lia.
Qed.

(** *** Blanking out a facade *)

Lemma first_existing_blank files p txt ps :
  files !! p = Some txt →
  first_existing (<[p := ""]> files) ps
  = (λ '(f, t), (f, if decide (f = p) then "" else t)) <$> first_existing files ps.
Proof.
  intros Hp. induction ps as [|c ps IH]; cbn; [done|].
  destruct (decide (c = p)) as [->|Hne].
  - rewrite lookup_insert_eq, Hp. cbn. by rewrite decide_True.
  - rewrite lookup_insert_ne by done.
    destruct (files !! c); [|done]. cbn. by rewrite decide_False.
Qed.

Section Blank.
Context (E : env) (p : path) (txt pre : string).
Hypothesis Hfacade : (txt, pre) ∈ facades.
Hypothesis Hp : fs E !! p = Some txt.

Lemma resolve_blank cur inc :
  resolve (blank_out p E) cur inc
  = (λ '(f, t), (f, if decide (f = p) then "" else t)) <$> resolve E cur inc.
Proof. unfold resolve. cbn. apply (first_existing_blank _ _ _ _ Hp). Qed.

(** With the guard defined, the facade and an empty file are the same. *)
Lemma open_file_blank fuel q t st :
  defined guard st = true →
  open_file (blank_out p E) fuel q t st = open_file E fuel q t st.
Proof.
  revert q t st. induction fuel as [|n IH]; intros q t st Hd; [done|].
  rewrite !open_file_S. symmetry.
  apply run_lines_agree with (I := λ s, defined guard s = true); [| | |done].
  - intros s s' Hg. by apply grows_defined.
  - intros c inc s Hs. unfold include_at. rewrite resolve_blank.
    destruct (resolve E c inc) as [[f u]|] eqn:Hr; cbn; [|done].
    destruct (decide (f = p)) as [->|Hne]; [|by rewrite IH].
    apply resolve_Some in Hr. assert (u = txt) as -> by congruence.
    destruct n as [|n]; [done|].
    by rewrite (open_facade_skip _ _ _ _ _ _ Hfacade Hs).
  - intros c inc s s'. apply include_at_grows.
Qed.

Lemma include_at_blank fuel cur inc st :
  defined guard st = true →
  include_at (blank_out p E) fuel cur inc st = include_at E fuel cur inc st.
Proof.
  intros Hd. unfold include_at. rewrite resolve_blank.
  destruct (resolve E cur inc) as [[f u]|] eqn:Hr; cbn; [|done].
  destruct (decide (f = p)) as [->|Hne]; [|by apply open_file_blank].
  apply resolve_Some in Hr. assert (u = txt) as -> by congruence.
  destruct fuel as [|n]; [done|].
  by rewrite (open_facade_skip _ _ _ _ _ _ Hfacade Hd).
Qed.

End Blank.

(** *** Runs that end *)

Lemma run_lines_terminates (I : state → Prop) incl cur ls cs st :
  (∀ s s', grows s s' → I s → I s') →
  (∀ c inc s s', incl c inc s = Ok s' → grows s s') →
  (∀ inc s, Include inc ∈ ls → I s → terminates (incl cur inc s)) →
  I st →
  terminates (run_lines incl cur ls cs st).
Proof.
  intros Hup Hg. revert cs st.
  induction ls as [|l ls IH]; intros cs st Hinc HI; cbn.
  - by destruct cs.
  - assert (Hinc' : ∀ inc s, Include inc ∈ ls → I s → terminates (incl cur inc s))
      by (intros inc s ?; by apply Hinc, list_elem_of_further).
    destruct l as [m|m|inc| |t|s]; try done.
    + by apply IH.
    + apply IH; [done|]. destruct (active cs); [|done].
      eapply Hup; [apply define_grows|done].
    + destruct (active cs); [|by apply IH].
      pose proof (Hinc inc st (list_elem_of_here _ _) HI) as Ht.
      destruct (incl cur inc st) as [s1| |] eqn:Hi; try done.
      apply IH; [done|]. eapply Hup; [|done]. eauto.
    + destruct cs; [done|]. by apply IH.
    + apply IH; [done|]. destruct (active cs); [|done].
      eapply Hup; [apply emit_grows|done].
Qed.

Section Ranked.
Context (E : env) (p : path) (txt pre : string) (rank : path → nat).
Hypothesis Hfacade : (txt, pre) ∈ facades.
Hypothesis Hp : fs E !! p = Some txt.
Hypothesis Hrank : ranked E p rank.

Lemma include_at_ranked n f t inc s :
  (∀ g u s', fs E !! g = Some u → rank g < n → defined guard s' = true →
     terminates (open_file E (S n) g u s')) →
  fs E !! f = Some t → Include inc ∈ parse_file t → rank f < S n →
  defined guard s = true →
  terminates (include_at E (S n) f inc s).
Proof.
  intros IH Hf Hinc Hlt Hs. unfold include_at.
  destruct (resolve E f inc) as [[g u]|] eqn:Hr; [|done].
  destruct (decide (g = p)) as [->|Hne].
  - apply resolve_Some in Hr. assert (u = txt) as -> by congruence.
    by rewrite (open_facade_skip _ _ _ _ _ _ Hfacade Hs).
  - apply IH; [by eapply resolve_Some| |done].
    pose proof (Hrank _ _ _ _ _ Hf Hinc Hr Hne). lia.
Qed.

Lemma open_file_ranked n f t st :
  fs E !! f = Some t → rank f < n → defined guard st = true →
  terminates (open_file E (S n) f t st).
Proof.
  revert f t st. induction n as [|n IH]; intros f t st Hf Hlt Hd; [lia|].
  rewrite open_file_S.
  apply run_lines_terminates with (I := λ s, defined guard s = true); [| | |done].
  - intros s s' Hg. by apply grows_defined.
  - intros c inc s s'. apply include_at_grows.
  - intros inc s Hinc Hs. by eapply include_at_ranked.
Qed.

Lemma open_facade_ranked k st :
  rank p + 2 ≤ k → terminates (open_file E k p txt st).
Proof.
  intros Hk. destruct k as [|[|n]]; [lia..|].
  destruct (defined guard st) eqn:Hd.
  - by rewrite (open_facade_skip _ _ _ _ _ _ Hfacade Hd).
  - rewrite (open_facade_body _ _ _ _ _ _ Hfacade Hd).
    apply run_lines_terminates with (I := λ s, defined guard s = true).
    + intros s s' Hg. by apply grows_defined.
    + intros c inc s s'. apply include_at_grows.
    + intros inc s Hinc Hs. eapply include_at_ranked; [| done | | lia | done].
      * intros g u s' Hg Hlt Hs'. by apply open_file_ranked.
      * rewrite (parse_facade _ _ Hfacade). unfold skeleton.
        apply list_elem_of_further, list_elem_of_further, elem_of_app. by left.
    + apply defined_define.
Qed.

End Ranked.

(** *** Where the includes of the two facades point *)

Lemma abs_candidates E cur h :
  h ∈ headers → candidates E cur (abs_prefix +:+ h) = [whisper_dir ++ components h].
Proof.
  intros H. unfold headers in H.
  repeat (apply elem_of_cons in H as [->|H]; [reflexivity|]).
  by apply elem_of_nil in H.
Qed.

Lemma walk_headers b h : h ∈ headers → walk b (components h) = b ++ components h.
Proof.
  intros H. unfold headers in H.
  repeat (apply elem_of_cons in H as [->|H]; [cbn; by rewrite <- !app_assoc|]).
  by apply elem_of_nil in H.
Qed.

Lemma rel_walk d h :
  h ∈ headers →
  walk d (components (rel_prefix +:+ h))
  = (removelast d ++ ["whisper.cpp"]) ++ components h.
Proof.
  intros H.
  change (walk d (components (rel_prefix +:+ h)))
    with (walk (removelast d ++ ["whisper.cpp"]) (components h)).
  by apply walk_headers.
Qed.

Lemma rel_candidates E cur h :
  h ∈ headers →
  candidates E cur (rel_prefix +:+ h)
  = (sibling cur ++ components h)
    :: ((λ d, walk d (components (rel_prefix +:+ h))) <$> search E).
Proof.
  intros H. unfold candidates.
  change (is_absolute (rel_prefix +:+ h)) with false.
  cbn [fmap list_fmap]. by rewrite rel_walk.
Qed.

Lemma abs_unresolved E cur h :
  lacks_dir (fs E) whisper_dir → h ∈ headers →
  resolve E cur (abs_prefix +:+ h) = None.
Proof.
  intros Hl Hh. unfold resolve. rewrite abs_candidates by done.
  cbn [first_existing]. by rewrite Hl.
Qed.

Lemma rel_resolves E cur h :
  search_misses E → h ∈ headers →
  resolves E cur (rel_prefix +:+ h) ↔ is_Some (fs E !! (sibling cur ++ components h)).
Proof.
  intros Hs Hh. unfold resolves, resolve. rewrite rel_candidates by done.
  cbn [first_existing].
  destruct (fs E !! (sibling cur ++ components h)) as [t|]; [by split; eauto|].
  replace (first_existing _ _) with (@None (path * string)); [done|].
  symmetry. apply first_existing_None, Forall_fmap, Forall_forall.
  intros d Hd. cbn. apply Hs; [done|]. by apply list_elem_of_fmap_2.
Qed.

Lemma include_at_Ok_resolves E fuel cur inc st st' :
  include_at E fuel cur inc st = Ok st' → resolves E cur inc.
Proof.
  unfold include_at, resolves. destruct (resolve E cur inc); [by eexists|done].
Qed.

(** *** Tables that differ in the provenance of the guard *)

Lemma alike_refl s : alike s s.
Proof. by repeat split. Qed.

Lemma define_alike m cur s1 s2 : alike s1 s2 → alike (define m cur s1) (define m cur s2).
Proof.
  intros (Hd & Hm & Hl). unfold define. rewrite <- (Hm m).
  destruct (defined m s1); [done|]. split; [done|]. split.
  - intros m'. unfold defined. cbn.
    destruct (decide (m = m')) as [<-|Hne].
    + by rewrite !lookup_insert_eq.
    + rewrite !lookup_insert_ne by done. apply Hm.
  - intros m' Hg. cbn. destruct (decide (m = m')) as [<-|Hne].
    + by rewrite !lookup_insert_eq.
    + rewrite !lookup_insert_ne by done. by apply Hl.
Qed.

Lemma define_guard_alike p1 p2 s1 s2 :
  alike s1 s2 → alike (define guard p1 s1) (define guard p2 s2).
Proof.
  intros (Hd & Hm & Hl). unfold define. rewrite <- (Hm guard).
  destruct (defined guard s1); [done|]. split; [done|]. split.
  - intros m'. unfold defined. cbn.
    destruct (decide (guard = m')) as [<-|Hne].
    + by rewrite !lookup_insert_eq.
    + rewrite !lookup_insert_ne by done. apply Hm.
  - intros m' Hg. cbn. rewrite !lookup_insert_ne by done. by apply Hl.
Qed.

Lemma emit_alike cur t s1 s2 : alike s1 s2 → alike (emit cur t s1) (emit cur t s2).
Proof. intros (Hd & Hm & Hl). split; [cbn; by rewrite Hd|done]. Qed.

Lemma run_lines_alike incl cur ls cs s1 s2 :
  (∀ c inc a b, alike a b → alike_results (incl c inc a) (incl c inc b)) →
  alike s1 s2 →
  alike_results (run_lines incl cur ls cs s1) (run_lines incl cur ls cs s2).
Proof.
  intros Hincl. revert cs s1 s2.
  induction ls as [|l ls IH]; intros cs s1 s2 Ha; cbn.
  - by destruct cs.
  - destruct l as [m|m|inc| |t|s]; try done.
    + destruct Ha as (Hd & Hm & Hl). rewrite <- (Hm m). by apply IH.
    + apply IH. destruct (active cs); [by apply define_alike|done].
    + destruct (active cs); [|by apply IH].
      pose proof (Hincl cur inc _ _ Ha) as Hr.
      destruct (incl cur inc s1) as [a| |], (incl cur inc s2) as [b| |]; try done.
      by apply IH.
    + destruct cs; [done|]. by apply IH.
    + apply IH. destruct (active cs); [by apply emit_alike|done].
Qed.

Lemma open_file_alike E fuel p txt s1 s2 :
  alike s1 s2 → alike_results (open_file E fuel p txt s1) (open_file E fuel p txt s2).
Proof.
  revert p txt s1 s2. induction fuel as [|n IH]; intros p txt s1 s2 Ha; [done|].
  rewrite !open_file_S. apply run_lines_alike; [|done].
  intros c inc a b Hab. unfold include_at.
  destruct (resolve E c inc) as [[f t]|]; [by apply IH|done].
Qed.

(** Two runs of includes that find the same files, one after the other. *)
Lemma run_includes_alike E n cur1 cur2 incs1 incs2 s1 s2 :
  Forall2 (λ i1 i2, resolves E cur1 i1 ∧ resolve E cur1 i1 = resolve E cur2 i2)
    incs1 incs2 →
  alike s1 s2 →
  alike_results (run_lines (include_at E n) cur1 (Include <$> incs1) [] s1)
                (run_lines (include_at E n) cur2 (Include <$> incs2) [] s2).
Proof.
  intros Hall. revert s1 s2.
  induction Hall as [|i1 i2 l1 l2 [[[f t] Hr] Heq] _ IH]; intros s1 s2 Ha; cbn; [done|].
  unfold include_at. rewrite <- Heq, Hr.
  pose proof (open_file_alike E n f t _ _ Ha) as H.
  destruct (open_file E n f t s1) as [a| |], (open_file E n f t s2) as [b| |]; try done.
  by apply IH.
Qed.

Lemma facades_alike E fuel p_rel p_abs st :
  (∀ h, h ∈ headers →
     resolves E p_rel (rel_prefix +:+ h)
     ∧ resolve E p_rel (rel_prefix +:+ h) = resolve E p_abs (abs_prefix +:+ h)) →
  alike_results (open_file E fuel p_rel facade_rel_text st)
                (open_file E fuel p_abs facade_abs_text st).
Proof.
  intros H. destruct fuel as [|n]; [done|].
  destruct (defined guard st) eqn:Hd.
  - rewrite (open_facade_skip _ _ _ _ _ _ rel_is_facade Hd).
    rewrite (open_facade_skip _ _ _ _ _ _ abs_is_facade Hd). apply alike_refl.
  - rewrite (open_facade_body _ _ _ _ _ _ rel_is_facade Hd).
    rewrite (open_facade_body _ _ _ _ _ _ abs_is_facade Hd).
    apply run_includes_alike; [|apply define_guard_alike, alike_refl].
    unfold includes. apply Forall2_fmap, Forall_Forall2_diag, Forall_forall.
    intros h Hh. by apply H.
Qed.

(** ** The claims *)

(** *** The text of the two files *)

(** C7. The two bridging headers together have fewer than 40 source lines:
    cut at its line feeds the relative file has 18 lines (17 line feeds, the
    last line empty) and the nested file 16 (15 line feeds, none after
    [#endif]); 34 in all. *)
Theorem C7_under_forty_lines :
  length (lines facade_rel_text) = 18
  ∧ length (lines facade_abs_text) = 16
  ∧ count_char newline facade_rel_text = 17
  ∧ count_char newline facade_abs_text = 15
  ∧ length (lines facade_rel_text) + length (lines facade_abs_text) < 40.
Proof. repeat split; try reflexivity. vm_compute. lia. Qed.

(** C2. The two files are the same up to the spelling of the include
    paths: each is the sixteen-line template at its prefix (the relative
    file ends with two more empty lines), so both test and define the same
    guard and include the same four header names in the same order, one
    through the relative prefix [../whisper.cpp/], the other through the
    absolute prefix of the author's machine.  Nothing else tells them
    apart: on a machine where the two spellings find the same files, the
    two facades build the same table, but for the file named as the one
    that defined the guard. *)
Theorem C2_same_up_to_prefix :
  (lines facade_rel_text = template rel_prefix ++ [""; ""]
   ∧ lines facade_abs_text = template abs_prefix
   ∧ parse_file facade_rel_text = skeleton rel_prefix
   ∧ parse_file facade_abs_text = skeleton abs_prefix
   ∧ basename <$> includes_of (parse_file facade_rel_text) = header_names
   ∧ basename <$> includes_of (parse_file facade_abs_text) = header_names
   ∧ is_absolute rel_prefix = false
   ∧ is_absolute abs_prefix = true
   ∧ walk [] (components abs_prefix) = whisper_dir)
  ∧ ∀ E fuel p_rel p_abs st,
      (∀ h, h ∈ headers →
         resolves E p_rel (rel_prefix +:+ h)
         ∧ resolve E p_rel (rel_prefix +:+ h) = resolve E p_abs (abs_prefix +:+ h)) →
      alike_results (open_file E fuel p_rel facade_rel_text st)
                    (open_file E fuel p_abs facade_abs_text st).
Proof.
  split; [by repeat split|]. intros E fuel p_rel p_abs st. apply facades_alike.
Qed.

(** *** The include guard *)

(** C1. Inclusion of either facade is idempotent within one unit.  Let
    [inc] name a facade from the file [cur].  Two include directives in a
    row give what one gives, whatever follows and from whatever table; more
    generally, after an include of the facade that is run, any later include
    of it can be struck from the file.  An inclusion that goes through
    leaves the guard defined, by the facade itself when it was not defined
    before; and from then on every inclusion of that file, from any file of
    the unit, leaves the table as it is. *)
Theorem C1_inclusion_is_idempotent E fuel cur inc p txt pre :
  (txt, pre) ∈ facades →
  resolve E cur inc = Some (p, txt) →
  (∀ rest cs st,
     run_lines (include_at E fuel) cur (Include inc :: Include inc :: rest) cs st
     = run_lines (include_at E fuel) cur (Include inc :: rest) cs st)
  ∧ (∀ between rest cs st, active cs = true →
     run_lines (include_at E fuel) cur
       (Include inc :: between ++ Include inc :: rest) cs st
     = run_lines (include_at E fuel) cur (Include inc :: between ++ rest) cs st)
  ∧ (∀ st st', include_at E fuel cur inc st = Ok st' →
       defined guard st' = true
       ∧ (defined guard st = false → macros st' !! guard = Some p)
       ∧ ∀ n cur' inc' s,
           grows st' s → resolve E cur' inc' = Some (p, txt) →
           include_at E (S n) cur' inc' s = Ok s).
Proof.
  intros Hf Hr. split; [|split].
  - intros rest cs st. by eapply include_pair.
  - intros between rest cs st Hcs.
    exact (include_then_drop _ _ _ _ _ _ _ _ _ _ _ _ _ _ _ Hf Hf Hr Hr Hcs).
  - intros st st' H.
    assert (Hd' : defined guard st' = true).
    { unfold include_at in H. rewrite Hr in H. by eapply open_facade_defines. }
    split; [done|]. split.
    + intros Hd. unfold include_at in H. rewrite Hr in H.
      destruct fuel as [|n]; [done|].
      rewrite (open_facade_body _ _ _ _ _ _ Hf Hd) in H.
      apply run_lines_grows in H as [Hm _]; [|intros ????; apply include_at_grows].
      eapply lookup_weaken; [|done]. by apply lookup_define_fresh.
    + intros n cur' inc' s Hg Hr'. unfold include_at. rewrite Hr'.
      eapply open_facade_skip; [done|]. by eapply grows_defined.
Qed.

(** C8. The two facades share one guard, so within a unit they exclude
    each other: of the two, in either order, only the one included first
    is run.  The include of the other, wherever it stands later in the
    file, can be struck without changing the build: its body is skipped
    whole, and the guard is left defined by the first. *)
Theorem C8_first_facade_wins E fuel cur inc_rel inc_abs p_rel p_abs :
  resolve E cur inc_rel = Some (p_rel, facade_rel_text) →
  resolve E cur inc_abs = Some (p_abs, facade_abs_text) →
  (∀ between rest cs st, active cs = true →
     run_lines (include_at E fuel) cur
       (Include inc_rel :: between ++ Include inc_abs :: rest) cs st
     = run_lines (include_at E fuel) cur (Include inc_rel :: between ++ rest) cs st)
  ∧ (∀ between rest cs st, active cs = true →
     run_lines (include_at E fuel) cur
       (Include inc_abs :: between ++ Include inc_rel :: rest) cs st
     = run_lines (include_at E fuel) cur (Include inc_abs :: between ++ rest) cs st)
  ∧ (∀ st st', defined guard st = false →
       include_at E fuel cur inc_rel st = Ok st' →
       macros st' !! guard = Some p_rel
       ∧ include_at E fuel cur inc_abs st' = Ok st')
  ∧ (∀ st st', defined guard st = false →
       include_at E fuel cur inc_abs st = Ok st' →
       macros st' !! guard = Some p_abs
       ∧ include_at E fuel cur inc_rel st' = Ok st').
Proof.
  intros Hrel Habs.
  assert (Hfr : (facade_rel_text, rel_prefix) ∈ facades) by apply list_elem_of_here.
  assert (Hfa : (facade_abs_text, abs_prefix) ∈ facades)
    by apply list_elem_of_further, list_elem_of_here.
  assert (Hfirst : ∀ inc p txt pre st st',
            (txt, pre) ∈ facades → resolve E cur inc = Some (p, txt) →
            defined guard st = false → include_at E fuel cur inc st = Ok st' →
            macros st' !! guard = Some p).
  { intros inc p txt pre st st' Hf Hr Hd H.
    unfold include_at in H. rewrite Hr in H. destruct fuel as [|n]; [done|].
    rewrite (open_facade_body _ _ _ _ _ _ Hf Hd) in H.
    apply run_lines_grows in H as [Hm _]; [|intros ????; apply include_at_grows].
    eapply lookup_weaken; [|done]. by apply lookup_define_fresh. }
  split; [|split; [|split]].
  - intros between rest cs st Hcs.
    exact (include_then_drop _ _ _ _ _ _ _ _ _ _ _ _ _ _ _ Hfr Hfa Hrel Habs Hcs).
  - intros between rest cs st Hcs.
    exact (include_then_drop _ _ _ _ _ _ _ _ _ _ _ _ _ _ _ Hfa Hfr Habs Hrel Hcs).
  - intros st st' Hd H. split.
    + exact (Hfirst _ _ _ _ _ _ Hfr Hrel Hd H).
    + exact (facade_after_facade _ _ _ _ _ _ _ _ _ _ _ _ _ Hfr Hfa Hrel Habs H).
  - intros st st' Hd H. split.
    + exact (Hfirst _ _ _ _ _ _ Hfa Habs Hd H).
    + exact (facade_after_facade _ _ _ _ _ _ _ _ _ _ _ _ _ Hfa Hfr Habs Hrel H).
Qed.

(** *** What a facade brings in *)

Lemma run_four incl cur i1 i2 i3 i4 st st' :
  run_lines incl cur (Include <$> [i1; i2; i3; i4]) [] st = Ok st' →
  ∃ s1 s2 s3,
    incl cur i1 st = Ok s1 ∧ incl cur i2 s1 = Ok s2
    ∧ incl cur i3 s2 = Ok s3 ∧ incl cur i4 s3 = Ok st'.
Proof.
  cbn.
  destruct (incl cur i1 st) as [s1| |] eqn:H1; [|done..].
  destruct (incl cur i2 s1) as [s2| |] eqn:H2; [|done..].
  destruct (incl cur i3 s2) as [s3| |] eqn:H3; [|done..].
  destruct (incl cur i4 s3) as [s4| |] eqn:H4; [|done..].
  intros [= <-]. by exists s1, s2, s3.
Qed.

(** C3. Each facade aggregates exactly four external headers, in the order
    [ggml.h], [ggml-cpu.h], [ggml-backend.h], [whisper.h], and no others:
    run where the guard is not yet defined, the facade is the run of these
    four includes, one after the other, with the guard defined; when it goes
    through, each of the four went through in its turn and all that each
    one declared is in the final table. *)
Theorem C3_four_headers_in_order E n p txt pre st :
  (txt, pre) ∈ facades →
  defined guard st = false →
  includes_of (parse_file txt) = includes pre
  ∧ basename <$> includes pre = header_names
  ∧ open_file E (S n) p txt st
    = run_lines (include_at E n) p (Include <$> includes pre) [] (define guard p st)
  ∧ ∀ st', open_file E (S n) p txt st = Ok st' →
      ∃ s1 s2 s3,
        include_at E n p (pre +:+ "ggml/include/ggml.h") (define guard p st) = Ok s1
        ∧ include_at E n p (pre +:+ "ggml/include/ggml-cpu.h") s1 = Ok s2
        ∧ include_at E n p (pre +:+ "ggml/include/ggml-backend.h") s2 = Ok s3
        ∧ include_at E n p (pre +:+ "include/whisper.h") s3 = Ok st'
        ∧ grows s1 s2 ∧ grows s2 s3 ∧ grows s3 st'.
Proof.
  intros Hf Hd.
  assert (Hstatic : includes_of (parse_file txt) = includes pre
                    ∧ basename <$> includes pre = header_names).
  { unfold facades in Hf.
    repeat (apply elem_of_cons in Hf as [[= -> ->]|Hf]; [by split|]).
    by apply elem_of_nil in Hf. }
  destruct Hstatic as [Hi Hb]. split; [done|]. split; [done|].
  split; [by apply open_facade_body|].
  intros st'. rewrite (open_facade_body _ _ _ _ _ _ Hf Hd). intros H.
  apply run_four in H as (s1 & s2 & s3 & H1 & H2 & H3 & H4).
  exists s1, s2, s3.
  pose proof (include_at_grows _ _ _ _ _ _ H2).
  pose proof (include_at_grows _ _ _ _ _ _ H3).
  pose proof (include_at_grows _ _ _ _ _ _ H4).
  tauto.
Qed.

(** C5. Both facades are pure pass-throughs.  No line of a facade is handed
    to the compiler, and the guard is the one macro a facade names.  After a
    facade at [p] went through, an entry of the symbol table was there
    before, or is the guard defined by [p], or was put there by a line of
    another file, a declaration exactly as that file spells it. *)
Theorem C5_pure_pass_through E fuel p txt pre st st' :
  (txt, pre) ∈ facades →
  fs E !! p = Some txt →
  open_file E fuel p txt st = Ok st' →
  forallb pass_through (parse_file txt) = true
  ∧ defines_of (parse_file txt) = [guard]
  ∧ (∀ m f, macros st' !! m = Some f →
       macros st !! m = Some f
       ∨ (m = guard ∧ f = p)
       ∨ (f ≠ p ∧ from_file E f (Define m)))
  ∧ (∀ f t, (f, t) ∈ decls st' →
       (f, t) ∈ decls st
       ∨ (f ≠ p ∧ ∃ src, fs E !! f = Some src ∧ t ∈ lines src ∧ Decl t ∈ parse_file src)).
Proof.
  intros Hf Hp H.
  assert (Hstatic : forallb pass_through (parse_file txt) = true
                    ∧ defines_of (parse_file txt) = [guard]).
  { unfold facades in Hf.
    repeat (apply elem_of_cons in Hf as [[= -> ->]|Hf]; [by split|]).
    by apply elem_of_nil in Hf. }
  destruct Hstatic as [Hpass Hdef]. split; [done|]. split; [done|].
  assert (Hown : ∀ l, from_file E p l → pass_through l = true).
  { intros l (src & Hsrc & Hl). assert (src = txt) as -> by congruence.
    rewrite forallb_forall in Hpass. by apply Hpass, list_elem_of_In. }
  apply open_file_traced in H as [Hm Hd]; [|done]. split.
  - intros m f Hmf. destruct (Hm _ _ Hmf) as [?|Hl]; [by left|]. right.
    destruct (decide (f = p)) as [->|Hne]; [left|by right].
    apply Hown in Hl. cbn in Hl. split; [|done]. by apply String.eqb_eq.
  - intros f t Hft. destruct (Hd _ _ Hft) as [?|Hl]; [by left|]. right.
    destruct (decide (f = p)) as [->|Hne]; [by apply Hown in Hl|].
    split; [done|]. destruct Hl as (src & Hsrc & Hl).
    exists src. split; [done|]. split; [by apply parse_file_Decl|done].
Qed.

(** *** Failures *)

(** C6. The facade has no failure of its own but a header that is not
    found.  In the build of any unit, a failure raised at a line of a facade
    is the failure to find one of its four includes; and a facade has no
    line that reaches the compiler, so it leaves nothing to execute. *)
Theorem C6_only_resolution_failures E fuel p txt pre tu src st f :
  (txt, pre) ∈ facades →
  fs E !! p = Some txt →
  fs E !! tu = Some src →
  open_file E fuel tu src st = Err p f →
  resolution_failure (includes pre) f
  ∧ (∀ t, Decl t ∉ parse_file txt)
  ∧ (∀ s, Bad s ∉ parse_file txt).
Proof.
  intros Hf Hp Htu H. split; [by eapply facade_failure_any_file|].
  rewrite (parse_facade _ _ Hf). unfold skeleton, includes, headers.
  split; intros x Hx; cbn in Hx;
    repeat (apply elem_of_cons in Hx as [Hx|Hx]; [discriminate Hx|]);
    by apply elem_of_nil in Hx.
Qed.

(** *** Termination *)

(** A file that includes itself and has no guard exhausts every nesting
    bound: what the guard of the facades is there to prevent. *)
Lemma unguarded_cycle_exhausts fuel st :
  open_file looping fuel loop_path loop_text st = OutOfFuel.
Proof.
  revert st. induction fuel as [|n IH]; intros st; [done|].
  rewrite open_file_S.
  change (parse_file loop_text) with [Include "loop.h"].
  cbn [run_lines active]. unfold include_at.
  change (resolve looping loop_path "loop.h") with (Some (loop_path, loop_text)).
  cbv beta iota. by rewrite IH.
Qed.

(** C9. In each facade the guard is defined before any include is run, so
    a header that includes the facade again, directly or through other
    files, finds the guard defined and gets nothing: the facade's run is
    the run of its four includes on a machine where the facade is an empty
    file.  Hence the facade ends: on a machine whose include graph has no
    cycle but through the facade, its run ends within the nesting bound
    [rank p + 2], and at every larger one with the same result. *)
Theorem C9_reinclusion_is_cut E p txt pre st :
  (txt, pre) ∈ facades →
  fs E !! p = Some txt →
  defined guard st = false →
  parse_file txt = Ifndef guard :: Define guard :: (Include <$> includes pre) ++ [Endif]
  ∧ (∀ n, open_file E (S n) p txt st
          = run_lines (include_at (blank_out p E) n) p (Include <$> includes pre) []
              (define guard p st))
  ∧ (∀ n cur inc s,
       resolve E cur inc = Some (p, txt) → grows (define guard p st) s →
       include_at E (S n) cur inc s = Ok s)
  ∧ (∀ rank, ranked E p rank →
       ∀ k, rank p + 2 ≤ k →
         terminates (open_file E k p txt st)
         ∧ open_file E k p txt st = open_file E (rank p + 2) p txt st).
Proof.
  intros Hf Hp Hd.
  assert (Hg : defined guard (define guard p st) = true) by apply defined_define.
  split; [by apply parse_facade|]. split; [|split].
  - intros n. rewrite (open_facade_body _ _ _ _ _ _ Hf Hd).
    apply run_lines_agree with (I := λ s, defined guard s = true); [| | |done].
    + intros s s' Hgr. by apply grows_defined.
    + intros c inc s Hs. symmetry. by eapply include_at_blank.
    + intros c inc s s'. apply include_at_grows.
  - intros n cur inc s Hr Hgr. unfold include_at. rewrite Hr.
    eapply open_facade_skip; [done|]. by eapply grows_defined.
  - intros rank Hrank k Hk.
    assert (Ht : ∀ j, rank p + 2 ≤ j → terminates (open_file E j p txt st))
      by (intros j Hj; by eapply open_facade_ranked).
    split; [by apply Ht|]. apply open_file_more; [done|]. by apply Ht.
Qed.

(** *** Where the headers are looked for *)

(** C4, as the code has it.  On a machine with no file in or below
    [/Users/alexanderi/Downloads/whisperer/whisper.cpp], an include of the
    nested facade that is run while the guard is not yet defined stops the
    build: the first of the absolute includes is not found, whatever search
    directories the build has. *)
Theorem C4_absolute_facade_fails E n cur inc p rest cs st :
  lacks_dir (fs E) whisper_dir →
  resolve E cur inc = Some (p, facade_abs_text) →
  active cs = true →
  defined guard st = false →
  run_lines (include_at E (S n)) cur (Include inc :: rest) cs st
  = Err p (NotFound (abs_prefix +:+ "ggml/include/ggml.h"))
  ∧ open_file E (S n) p facade_abs_text st
    = Err p (NotFound (abs_prefix +:+ "ggml/include/ggml.h")).
Proof.
  intros Hl Hr Hcs Hd.
  assert (Hf : (facade_abs_text, abs_prefix) ∈ facades)
    by apply list_elem_of_further, list_elem_of_here.
  assert (H : ∀ k, open_file E (S k) p facade_abs_text st
              = Err p (NotFound (abs_prefix +:+ "ggml/include/ggml.h"))).
  { intros k. rewrite (open_facade_body _ _ _ _ _ _ Hf Hd).
    cbn [includes headers fmap list_fmap run_lines active].
    unfold include_at at 1.
    rewrite abs_unresolved; [done|done|apply list_elem_of_here]. }
  split; [|apply H].
  cbn [run_lines]. rewrite Hcs. unfold include_at. rewrite Hr.
  by rewrite H.
Qed.

(** C10, as the code has it.  Where no search directory supplies them, the
    four includes of the relative facade find their files exactly when the
    four headers lie in the directory [whisper.cpp] beside the facade's own
    directory; and without that layout the relative facade, run while the
    guard is not yet defined, never goes through, whatever the nesting
    bound. *)
Theorem C10_relative_facade_layout E p :
  search_misses E →
  (Forall (resolves E p) (includes rel_prefix) ↔ has_headers (fs E) (sibling p))
  ∧ (∀ fuel st, defined guard st = false →
       ¬ has_headers (fs E) (sibling p) →
       ¬ succeeds (open_file E fuel p facade_rel_text st)).
Proof.
  intros Hs.
  assert (Hiff : Forall (resolves E p) (includes rel_prefix)
                 ↔ has_headers (fs E) (sibling p)).
  { unfold has_headers, header_paths, includes. rewrite !Forall_fmap.
    rewrite !Forall_forall. split; intros H h Hh; cbn.
    - apply rel_resolves; [done..|]. by apply H.
    - apply rel_resolves; [done..|]. by apply H. }
  split; [done|].
  intros fuel st Hd Hno [st' H]. apply Hno, Hiff.
  assert (Hf : (facade_rel_text, rel_prefix) ∈ facades) by apply list_elem_of_here.
  destruct fuel as [|n]; [done|].
  rewrite (open_facade_body _ _ _ _ _ _ Hf Hd) in H.
  apply run_includes_Ok in H. eapply Forall_impl; [done|].
  intros inc (s & s' & Hi). by eapply include_at_Ok_resolves.
Qed.

(** ** The claims on concrete machines *)

Lemma proj_lacks_whisper_dir (files : list (path * string)) :
  Forall (λ f, head f = Some "proj") files.*1 →
  lacks_dir (list_to_map files) whisper_dir.
Proof.
  intros Hall rest. apply not_elem_of_list_to_map_1. intros Hin.
  rewrite Forall_forall in Hall. by apply Hall in Hin.
Qed.

Lemma laptop_lacks_whisper_dir : lacks_dir (fs laptop) whisper_dir.
Proof. apply proj_lacks_whisper_dir. cbn. by repeat constructor. Qed.

Lemma bare_lacks_whisper_dir main : lacks_dir (fs (bare main)) whisper_dir.
Proof. apply proj_lacks_whisper_dir. cbn. by repeat constructor. Qed.

Lemma laptop_search_misses : search_misses laptop.
Proof.
  intros d inc Hd Hinc. apply list_elem_of_singleton in Hd as ->.
  unfold includes, headers in Hinc. cbn in Hinc.
  repeat (apply elem_of_cons in Hinc as [->|Hinc]; [by vm_compute|]).
  by apply elem_of_nil in Hinc.
Qed.

Lemma bare_search_misses main : search_misses (bare main).
Proof. intros d inc Hd. by apply elem_of_nil in Hd. Qed.

Lemma bare_has_no_headers main : ¬ has_headers (fs (bare main)) (sibling (rel_path ["proj"])).
Proof.
  intros H. apply Forall_cons in H as [[t Ht] _]. vm_compute in Ht. discriminate Ht.
Qed.

Lemma searched_has_no_headers : ¬ has_headers (fs searched) (sibling (rel_path ["proj"])).
Proof.
  intros H. apply Forall_cons in H as [[t Ht] _]. vm_compute in Ht. discriminate Ht.
Qed.

Lemma author_same_files h :
  h ∈ headers →
  resolves author (rel_path author_root) (rel_prefix +:+ h)
  ∧ resolve author (rel_path author_root) (rel_prefix +:+ h)
    = resolve author (abs_path author_root) (abs_prefix +:+ h).
Proof.
  intros H. unfold headers in H.
  repeat (apply elem_of_cons in H as [->|H];
          [split; [by vm_compute; eexists|by vm_compute]|]).
  by apply elem_of_nil in H.
Qed.

(** On the author's machine both spellings find the same four files, and
    the two facades build the same table but for the file named for the
    guard. *)
Lemma C2_witness :
  (∀ h, h ∈ headers →
     resolves author (rel_path author_root) (rel_prefix +:+ h)
     ∧ resolve author (rel_path author_root) (rel_prefix +:+ h)
       = resolve author (abs_path author_root) (abs_prefix +:+ h))
  ∧ alike_results
      (open_file author 2 (rel_path author_root) facade_rel_text empty_state)
      (open_file author 2 (abs_path author_root) facade_abs_text empty_state)
  ∧ open_file author 2 (rel_path author_root) facade_rel_text empty_state
    = Ok (after_facade (rel_path author_root) whisper_dir)
  ∧ open_file author 2 (abs_path author_root) facade_abs_text empty_state
    = Ok (after_facade (abs_path author_root) whisper_dir).
Proof.
  split; [exact author_same_files|]. split.
  - apply (proj2 C2_same_up_to_prefix author 2 _ _ empty_state author_same_files).
  - split; vm_compute; reflexivity.
Defined.

(** The unit of [laptop] includes the relative facade twice as well as
    once. *)
Lemma C1_witness :
  (facade_rel_text, rel_prefix) ∈ facades
  ∧ resolve laptop (main_path ["proj"]) rel_inc
    = Some (rel_path ["proj"], facade_rel_text)
  ∧ run_lines (include_at laptop 2) (main_path ["proj"])
      [Include rel_inc; Include rel_inc] [] empty_state
    = run_lines (include_at laptop 2) (main_path ["proj"])
        [Include rel_inc] [] empty_state
  ∧ run_lines (include_at laptop 2) (main_path ["proj"])
      [Include rel_inc] [] empty_state
    = Ok (after_facade (rel_path ["proj"]) ["proj"; "whisper.cpp"]).
Proof.
  assert (Hr : resolve laptop (main_path ["proj"]) rel_inc
               = Some (rel_path ["proj"], facade_rel_text))
    by (vm_compute; reflexivity).
  split; [exact rel_is_facade|]. split; [exact Hr|]. split.
  - apply (proj1 (C1_inclusion_is_idempotent laptop 2 _ _ _ _ _ rel_is_facade Hr)).
  - vm_compute. reflexivity.
Defined.

(** On [laptop] the unit includes the relative facade, then the nested
    one: it builds as if the nested one were not there. *)
Lemma C8_witness :
  resolve laptop (main_path ["proj"]) rel_inc
  = Some (rel_path ["proj"], facade_rel_text)
  ∧ resolve laptop (main_path ["proj"]) abs_inc
    = Some (abs_path ["proj"], facade_abs_text)
  ∧ run_lines (include_at laptop 2) (main_path ["proj"])
      [Include rel_inc; Include abs_inc; Decl "int main(void);"] [] empty_state
    = run_lines (include_at laptop 2) (main_path ["proj"])
        [Include rel_inc; Decl "int main(void);"] [] empty_state
  ∧ run_lines (include_at laptop 2) (main_path ["proj"])
      [Include rel_inc; Decl "int main(void);"] [] empty_state
    = Ok (built (rel_path ["proj"]) ["proj"; "whisper.cpp"] (main_path ["proj"])).
Proof.
  assert (Hr : resolve laptop (main_path ["proj"]) rel_inc
               = Some (rel_path ["proj"], facade_rel_text))
    by (vm_compute; reflexivity).
  assert (Ha : resolve laptop (main_path ["proj"]) abs_inc
               = Some (abs_path ["proj"], facade_abs_text))
    by (vm_compute; reflexivity).
  split; [exact Hr|]. split; [exact Ha|]. split.
  - apply (proj1 (C8_first_facade_wins laptop 2 _ _ _ _ _ Hr Ha) [] _ [] empty_state eq_refl).
  - vm_compute. reflexivity.
Defined.

(** On the author's machine the nested facade is the run of its four
    includes and brings in the four headers. *)
Lemma C3_witness :
  (facade_abs_text, abs_prefix) ∈ facades
  ∧ defined guard empty_state = false
  ∧ open_file author 2 (abs_path author_root) facade_abs_text empty_state
    = run_lines (include_at author 1) (abs_path author_root)
        (Include <$> includes abs_prefix) []
        (define guard (abs_path author_root) empty_state)
  ∧ open_file author 2 (abs_path author_root) facade_abs_text empty_state
    = Ok (after_facade (abs_path author_root) whisper_dir).
Proof.
  split; [exact abs_is_facade|]. split; [reflexivity|]. split.
  - apply (C3_four_headers_in_order author 1 (abs_path author_root) _ _ empty_state
             abs_is_facade eq_refl).
  - vm_compute. reflexivity.
Defined.

(** On [laptop] nothing in the table after the relative facade comes from
    the facade's own file but the guard. *)
Lemma C5_witness :
  (facade_rel_text, rel_prefix) ∈ facades
  ∧ fs laptop !! rel_path ["proj"] = Some facade_rel_text
  ∧ open_file laptop 2 (rel_path ["proj"]) facade_rel_text empty_state
    = Ok (after_facade (rel_path ["proj"]) ["proj"; "whisper.cpp"])
  ∧ (∀ f t, (f, t) ∈ decls (after_facade (rel_path ["proj"]) ["proj"; "whisper.cpp"]) →
       (f, t) ∈ decls empty_state
       ∨ (f ≠ rel_path ["proj"]
          ∧ ∃ src, fs laptop !! f = Some src ∧ t ∈ lines src ∧ Decl t ∈ parse_file src)).
Proof.
  assert (Hp : fs laptop !! rel_path ["proj"] = Some facade_rel_text)
    by (vm_compute; reflexivity).
  assert (H : open_file laptop 2 (rel_path ["proj"]) facade_rel_text empty_state
              = Ok (after_facade (rel_path ["proj"]) ["proj"; "whisper.cpp"]))
    by (vm_compute; reflexivity).
  split; [exact rel_is_facade|]. split; [exact Hp|]. split; [exact H|].
  apply (C5_pure_pass_through laptop 2 _ _ _ _ _ rel_is_facade Hp H).
Defined.

(** Without the library the unit that includes the nested facade fails at
    the facade, with a header that is not found. *)
Lemma C6_witness :
  (facade_abs_text, abs_prefix) ∈ facades
  ∧ fs (bare main_abs) !! abs_path ["proj"] = Some facade_abs_text
  ∧ fs (bare main_abs) !! main_path ["proj"] = Some main_abs
  ∧ open_file (bare main_abs) 2 (main_path ["proj"]) main_abs empty_state
    = Err (abs_path ["proj"]) (NotFound (abs_prefix +:+ "ggml/include/ggml.h"))
  ∧ resolution_failure (includes abs_prefix)
      (NotFound (abs_prefix +:+ "ggml/include/ggml.h")).
Proof.
  assert (Hp : fs (bare main_abs) !! abs_path ["proj"] = Some facade_abs_text)
    by (vm_compute; reflexivity).
  assert (Htu : fs (bare main_abs) !! main_path ["proj"] = Some main_abs)
    by (vm_compute; reflexivity).
  assert (H : open_file (bare main_abs) 2 (main_path ["proj"]) main_abs empty_state
              = Err (abs_path ["proj"]) (NotFound (abs_prefix +:+ "ggml/include/ggml.h")))
    by (vm_compute; reflexivity).
  split; [exact abs_is_facade|]. split; [exact Hp|]. split; [exact Htu|].
  split; [exact H|].
  apply (C6_only_resolution_failures _ _ _ _ _ _ _ _ _ abs_is_facade Hp Htu H).
Defined.

Lemma cyclic_ranked : ranked cyclic (rel_path ["proj"]) cyclic_rank.
Proof.
  intros f txt inc g u Hf Hinc Hr Hne.
  apply elem_of_list_to_map_2 in Hf. cbn in Hf.
  repeat (apply elem_of_cons in Hf as [[= -> ->]|Hf];
    [vm_compute in Hinc;
     repeat (apply elem_of_cons in Hinc as [Heq|Hinc];
       [try discriminate Heq; injection Heq as ->;
        vm_compute in Hr; try discriminate Hr;
        injection Hr as <- <-; first [by destruct Hne | vm_compute; lia]|]);
     by apply elem_of_nil in Hinc|]).
  by apply elem_of_nil in Hf.
Qed.

(** On [cyclic] every header includes the facade again, and the facade
    ends all the same, with the same table, at every nesting bound from 3
    on. *)
Lemma C9_witness :
  (facade_rel_text, rel_prefix) ∈ facades
  ∧ fs cyclic !! rel_path ["proj"] = Some facade_rel_text
  ∧ defined guard empty_state = false
  ∧ ranked cyclic (rel_path ["proj"]) cyclic_rank
  ∧ ∀ k, 3 ≤ k →
      open_file cyclic k (rel_path ["proj"]) facade_rel_text empty_state
      = Ok (after_facade (rel_path ["proj"]) ["proj"; "whisper.cpp"]).
Proof.
  assert (Hp : fs cyclic !! rel_path ["proj"] = Some facade_rel_text)
    by (vm_compute; reflexivity).
  split; [exact rel_is_facade|]. split; [exact Hp|]. split; [reflexivity|].
  split; [exact cyclic_ranked|]. intros k Hk.
  destruct (proj2 (proj2 (proj2
    (C9_reinclusion_is_cut cyclic _ _ _ empty_state rel_is_facade Hp eq_refl)))
    cyclic_rank cyclic_ranked k Hk) as [_ ->].
  vm_compute. reflexivity.
Defined.

(** Without the library the unit that includes the nested facade stops at
    the first absolute include. *)
Lemma C4_witness :
  lacks_dir (fs (bare main_abs)) whisper_dir
  ∧ resolve (bare main_abs) (main_path ["proj"]) abs_inc
    = Some (abs_path ["proj"], facade_abs_text)
  ∧ active [] = true
  ∧ defined guard empty_state = false
  ∧ run_lines (include_at (bare main_abs) 1) (main_path ["proj"])
      (Include abs_inc :: [Decl "int main(void);"]) [] empty_state
    = Err (abs_path ["proj"]) (NotFound (abs_prefix +:+ "ggml/include/ggml.h")).
Proof.
  assert (Hr : resolve (bare main_abs) (main_path ["proj"]) abs_inc
               = Some (abs_path ["proj"], facade_abs_text))
    by (vm_compute; reflexivity).
  split; [exact (bare_lacks_whisper_dir main_abs)|]. split; [exact Hr|].
  split; [reflexivity|]. split; [reflexivity|].
  apply (proj1 (C4_absolute_facade_fails (bare main_abs) 0 _ _ _ _ [] empty_state
                  (bare_lacks_whisper_dir main_abs) Hr eq_refl eq_refl)).
Defined.

(** A machine other than the author's, a unit that includes the nested
    facade, and a build that goes through: the relative facade was included
    first and found its headers, so the nested one was skipped. *)
Lemma C4_counterexample :
  lacks_dir (fs laptop) whisper_dir
  ∧ fs laptop !! main_path ["proj"] = Some main_rel_abs
  ∧ parse_file main_rel_abs
    = [Include rel_inc; Include abs_inc; Decl "int main(void);"]
  ∧ resolve laptop (main_path ["proj"]) abs_inc
    = Some (abs_path ["proj"], facade_abs_text)
  ∧ compile laptop 3 (main_path ["proj"]) empty_state
    = Ok (built (rel_path ["proj"]) ["proj"; "whisper.cpp"] (main_path ["proj"])).
Proof.
  split; [exact laptop_lacks_whisper_dir|].
  repeat split; vm_compute; reflexivity.
Qed.

(** The layout is there on [laptop] and the includes resolve; it is not
    there on [bare] and the relative facade does not go through. *)
Lemma C10_witness :
  search_misses laptop
  ∧ (Forall (resolves laptop (rel_path ["proj"])) (includes rel_prefix)
     ↔ has_headers (fs laptop) (sibling (rel_path ["proj"])))
  ∧ search_misses (bare main_rel)
  ∧ ¬ succeeds (open_file (bare main_rel) 2 (rel_path ["proj"]) facade_rel_text
                  empty_state).
Proof.
  split; [exact laptop_search_misses|]. split.
  - apply (proj1 (C10_relative_facade_layout laptop (rel_path ["proj"])
                    laptop_search_misses)).
  - split; [exact (bare_search_misses main_rel)|].
    apply (proj2 (C10_relative_facade_layout (bare main_rel) (rel_path ["proj"])
                    (bare_search_misses main_rel)) 2 empty_state eq_refl
             (bare_has_no_headers main_rel)).
Defined.

(** Two builds of the relative facade that go through with no
    [whisper.cpp] beside the facade's directory: on [searched] a search
    directory supplies the four headers; on [bare] the unit defines the
    guard before it includes the facade, whose body is skipped. *)
Lemma C10_counterexample :
  (¬ has_headers (fs searched) (sibling (rel_path ["proj"]))
   ∧ Forall (resolves searched (rel_path ["proj"])) (includes rel_prefix)
   ∧ compile searched 3 (main_path ["proj"]) empty_state
     = Ok (built (rel_path ["proj"]) ["opt"; "whisper.cpp"] (main_path ["proj"])))
  ∧ (¬ has_headers (fs (bare main_guarded)) (sibling (rel_path ["proj"]))
     ∧ parse_file main_guarded
       = [Define guard; Include rel_inc; Decl "int main(void);"]
     ∧ resolve (bare main_guarded) (main_path ["proj"]) rel_inc
       = Some (rel_path ["proj"], facade_rel_text)
     ∧ compile (bare main_guarded) 3 (main_path ["proj"]) empty_state
       = Ok (State {[ guard := main_path ["proj"] ]}
               [(main_path ["proj"], "int main(void);")])).
Proof.
  split.
  - split; [exact searched_has_no_headers|]. split; [|vm_compute; reflexivity].
    unfold includes, headers. cbn [fmap list_fmap].
    repeat (apply Forall_cons; split; [by vm_compute; eexists|]). constructor.
  - split; [exact (bare_has_no_headers main_guarded)|].
    repeat split; vm_compute; reflexivity.
Qed.

(** ** Further properties of the two facades *)

Import Layouts.

(** *** A facade read from another place *)

Lemma run_includes_moved E n cur1 cur2 incs s1 s2 :
  (∀ inc, inc ∈ incs → resolve E cur1 inc = resolve E cur2 inc) →
  alike s1 s2 →
  alike_moved cur1 cur2
    (run_lines (include_at E n) cur1 (Include <$> incs) [] s1)
    (run_lines (include_at E n) cur2 (Include <$> incs) [] s2).
Proof.
  revert s1 s2. induction incs as [|inc incs IH]; intros s1 s2 Hsame Ha; cbn; [done|].
  unfold include_at at 1 3. rewrite <- (Hsame inc) by apply list_elem_of_here.
  destruct (resolve E cur1 inc) as [[f t]|]; [|by split; [|right]].
  pose proof (open_file_alike E n f t _ _ Ha) as H.
  destruct (open_file E n f t s1) as [a|q1 f1|], (open_file E n f t s2) as [b|q2 f2|];
    try done.
  - apply IH; [|done]. intros i Hi. by apply Hsame, list_elem_of_further.
  - destruct H as [-> ->]. by split; [|left].
Qed.

Lemma facade_moved E fuel p1 p2 txt pre st :
  (txt, pre) ∈ facades →
  (∀ inc, inc ∈ includes pre → resolve E p1 inc = resolve E p2 inc) →
  alike_moved p1 p2 (open_file E fuel p1 txt st) (open_file E fuel p2 txt st).
Proof.
  intros Hf Hsame. destruct fuel as [|n]; [done|].
  destruct (defined guard st) eqn:Hd.
  - rewrite !(open_facade_skip _ _ _ _ _ _ Hf Hd). apply alike_refl.
  - rewrite !(open_facade_body _ _ _ _ _ _ Hf Hd).
    apply run_includes_moved; [done|]. apply define_guard_alike, alike_refl.
Qed.

(** X1. The nested facade finds the same files from wherever it is read:
    what its absolute includes resolve to depends on the files of the
    machine alone, not on the including file nor on the search directories,
    and read from two places it gives the same build, but for the place
    named for the guard and for a header that is not found. *)
Theorem X1_absolute_facade_anywhere E fuel p1 p2 st :
  (∀ E' cur cur' h, h ∈ headers → fs E' = fs E →
     resolve E' cur' (abs_prefix +:+ h) = resolve E cur (abs_prefix +:+ h))
  ∧ alike_moved p1 p2 (open_file E fuel p1 facade_abs_text st)
                      (open_file E fuel p2 facade_abs_text st).
Proof.
  split.
  - intros E' cur cur' h Hh Hfs. unfold resolve.
    rewrite !abs_candidates by done. by rewrite Hfs.
  - apply (facade_moved _ _ _ _ _ _ _ abs_is_facade).
    intros inc Hinc. apply list_elem_of_fmap in Hinc as (h & -> & Hh).
    unfold resolve. by rewrite !abs_candidates.
Qed.

(** X4. The relative facade depends on the place it is read from only
    through the directory above its own: read from two files whose
    directories lie in the same directory, it looks for the same four files
    and gives the same build, but for the place named for the guard and for
    a header that is not found. *)
Theorem X4_relative_facade_beside E fuel p1 p2 st :
  dirname (dirname p1) = dirname (dirname p2) →
  (∀ h, h ∈ headers →
     resolve E p1 (rel_prefix +:+ h) = resolve E p2 (rel_prefix +:+ h))
  ∧ alike_moved p1 p2 (open_file E fuel p1 facade_rel_text st)
                      (open_file E fuel p2 facade_rel_text st).
Proof.
  intros Hup.
  assert (Hsame : ∀ h, h ∈ headers →
            resolve E p1 (rel_prefix +:+ h) = resolve E p2 (rel_prefix +:+ h)).
  { intros h Hh. unfold resolve. rewrite !rel_candidates by done.
    unfold sibling. by rewrite Hup. }
  split; [done|].
  apply (facade_moved _ _ _ _ _ _ _ rel_is_facade).
  intros inc Hinc. apply list_elem_of_fmap in Hinc as (h & -> & Hh). by apply Hsame.
Qed.

(** *** What a facade gives over plain headers *)





(** *** The include that stops a facade *)



(** *** The further properties on concrete machines *)



(** On [laptop] the relative facade read from [Bridge/Bridge.h], beside
    [Whisperer/], builds as it does from its own place. *)
Lemma X4_witness :
  dirname (dirname (rel_path ["proj"])) = dirname (dirname (moved_path ["proj"]))
  ∧ alike_moved (rel_path ["proj"]) (moved_path ["proj"])
      (open_file laptop 2 (rel_path ["proj"]) facade_rel_text empty_state)
      (open_file laptop 2 (moved_path ["proj"]) facade_rel_text empty_state)
  ∧ open_file laptop 2 (moved_path ["proj"]) facade_rel_text empty_state
    = Ok (after_facade (moved_path ["proj"]) ["proj"; "whisper.cpp"]).
Proof.
  split; [reflexivity|]. split.
  - apply (proj2 (X4_relative_facade_beside laptop 2 (rel_path ["proj"])
                    (moved_path ["proj"]) empty_state eq_refl)).
  - vm_compute. reflexivity.
Defined.
